(** * traefik-block-regex-urls: the block decision of the middleware

    A shallow embedding of the Traefik plugin [traefik_block_regex_urls]
    and of the three earlier revisions of the same file (substring rules
    with the unused IP helpers, substring rules, exact-match rules), with
    the properties of its block/forward decision.

    Layout: the Go library functions the plugin calls ([strings], [slices],
    [net], [net/http], [regexp]) first, then one module per revision of the
    plugin, then the lemmas. *)

From Stdlib Require Import ZArith String Ascii List Bool Lia Btauto.
From stdpp Require Import base strings gmap.
Import ListNotations.

Open Scope string_scope.
Open Scope list_scope.
Open Scope Z_scope.

(** Go strings are byte sequences; [string] is a sequence of 8-bit [ascii]. *)
Definition byte_of (c : ascii) : Z := Z.of_N (N_of_ascii c).

(** ** Package [strings] *)
Module strings.

(** [strings.HasPrefix(s, prefix)] *)
Fixpoint HasPrefix (s prefix : string) : bool :=
  match prefix, s with
  | EmptyString, _ => true
  | String _ _, EmptyString => false
  | String a prefix', String b s' => Ascii.eqb a b && HasPrefix s' prefix'
  end.

(** [strings.Contains(s, substr)]: [substr] occurs at some offset of [s]. *)
Fixpoint Contains (s substr : string) : bool :=
  HasPrefix s substr ||
  match s with
  | EmptyString => false
  | String _ s' => Contains s' substr
  end.

(** [strings.FieldsFunc(s, f)].  Go walks the string once, remembering
    the start of the field it is in ([start >= 0]) or that it is between
    fields ([start < 0]); [field] is [Some w] for the bytes of the open
    field and [None] between fields.  The separator of the plugin is the
    ASCII comma, which never occurs inside a multi-byte UTF-8 sequence,
    so walking bytes and walking runes split at the same places. *)
Fixpoint FieldsFunc_from (f : ascii -> bool) (s : string)
    (field : option string) : list string :=
  match s with
  | EmptyString =>
      match field with Some w => [w] | None => [] end
  | String c s' =>
      if f c then
        match field with
        | Some w => w :: FieldsFunc_from f s' None
        | None => FieldsFunc_from f s' None
        end
      else
        FieldsFunc_from f s'
          (Some (match field with
                 | Some w => w +:+ String c EmptyString
                 | None => String c EmptyString
                 end))
  end.

Definition FieldsFunc (s : string) (f : ascii -> bool) : list string :=
  FieldsFunc_from f s None.

(** The split of [s] at the first [sep], as [strings.Cut] with a
    one-byte separator and as [bytealg.IndexByteString] followed by
    slicing do it. *)
Fixpoint CutByte (s : string) (sep : ascii) : string * string * bool :=
  match s with
  | EmptyString => (EmptyString, EmptyString, false)
  | String c s' =>
      if Ascii.eqb c sep then (EmptyString, s', true)
      else
        let '(before, after, found) := CutByte s' sep in
        if found then (String c before, after, true)
        else (s, EmptyString, false)
  end.

(** [strings.Join(elems, sep)] *)
Definition Join (elems : list string) (sep : string) : string :=
  String.concat sep elems.

End strings.

(** ** Package [slices] *)
Module slices.

(** [slices.Contains(s, v)] on a slice of strings. *)
Fixpoint Contains (s : list string) (v : string) : bool :=
  match s with
  | [] => false
  | x :: s' => String.eqb v x || Contains s' v
  end.

End slices.

(** ** Package [net]: addresses, networks and the address parser

    [net.IP] and [net.IPMask] are byte slices; a byte is a [Z] in
    [0, 255].  The [nil] slice is the empty list. *)
Module net.

Definition IP := list Z.
Definition IPMask := list Z.
Record IPNet := { IPNet_IP : IP; IPNet_Mask : IPMask }.

Definition IPv4len : nat := 4.
Definition IPv6len : nat := 16.

Definition v4InV6Prefix : list Z := [0; 0; 0; 0; 0; 0; 0; 0; 0; 0; 255; 255].
Definition IPv6loopback : IP := [0; 0; 0; 0; 0; 0; 0; 0; 0; 0; 0; 0; 0; 0; 0; 1].
Definition IPv6unspecified : IP := repeat 0 16.

(** [bytealg.Equal] *)
Fixpoint bytes_Equal (a b : list Z) : bool :=
  match a, b with
  | [], [] => true
  | x :: a', y :: b' => (x =? y) && bytes_Equal a' b'
  | _, _ => false
  end.

Definition isZeros (p : list Z) : bool := forallb (Z.eqb 0) p.
Definition allFF (p : list Z) : bool := forallb (Z.eqb 255) p.

(** [ip.To4()]: the 4-byte form of an IPv4 address, [None] for Go's
    [nil] (not an IPv4 address). *)
Definition To4 (ip : IP) : option IP :=
  if (length ip =? IPv4len)%nat then Some ip
  else if (length ip =? IPv6len)%nat && isZeros (firstn 10 ip)
          && (nth 10 ip 0 =? 255) && (nth 11 ip 0 =? 255)
       then Some (skipn 12 ip)
       else None.

(** [ip.Equal(x)] *)
Definition Equal (ip x : IP) : bool :=
  if (length ip =? length x)%nat then bytes_Equal ip x
  else if (length ip =? IPv4len)%nat && (length x =? IPv6len)%nat
       then bytes_Equal (firstn 12 x) v4InV6Prefix && bytes_Equal ip (skipn 12 x)
  else if (length ip =? IPv6len)%nat && (length x =? IPv4len)%nat
       then bytes_Equal (firstn 12 ip) v4InV6Prefix && bytes_Equal (skipn 12 ip) x
  else false.

Definition IsLoopback (ip : IP) : bool :=
  match To4 ip with
  | Some ip4 => nth 0 ip4 0 =? 127
  | None => Equal ip IPv6loopback
  end.

Definition IsLinkLocalMulticast (ip : IP) : bool :=
  match To4 ip with
  | Some ip4 => (nth 0 ip4 0 =? 224) && (nth 1 ip4 0 =? 0) && (nth 2 ip4 0 =? 0)
  | None => (length ip =? IPv6len)%nat && (nth 0 ip 0 =? 255)
            && (Z.land (nth 1 ip 0) 15 =? 2)
  end.

Definition IsLinkLocalUnicast (ip : IP) : bool :=
  match To4 ip with
  | Some ip4 => (nth 0 ip4 0 =? 169) && (nth 1 ip4 0 =? 254)
  | None => (length ip =? IPv6len)%nat && (nth 0 ip 0 =? 254)
            && (Z.land (nth 1 ip 0) 192 =? 128)
  end.

(** [networkNumberAndMask(n)]; [([], [])] is Go's [(nil, nil)]. *)
Definition networkNumberAndMask (n : IPNet) : IP * IPMask :=
  let ip := match To4 (IPNet_IP n) with
            | Some ip4 => Some ip4
            | None => if (length (IPNet_IP n) =? IPv6len)%nat
                      then Some (IPNet_IP n) else None
            end in
  match ip with
  | None => ([], [])
  | Some ip =>
      if (length (IPNet_Mask n) =? IPv4len)%nat then
        if (length ip =? IPv4len)%nat then (ip, IPNet_Mask n) else ([], [])
      else if (length (IPNet_Mask n) =? IPv6len)%nat then
        if (length ip =? IPv4len)%nat then (ip, skipn 12 (IPNet_Mask n))
        else (ip, IPNet_Mask n)
      else ([], [])
  end.

(** [n.Contains(ip)] *)
Definition Contains (n : IPNet) (ip : IP) : bool :=
  let '(nn, m) := networkNumberAndMask n in
  let ip := match To4 ip with Some x => x | None => ip end in
  let l := length ip in
  if negb (l =? length nn)%nat then false
  else forallb (fun i => Z.land (nth i nn 0) (nth i m 0)
                         =? Z.land (nth i ip 0) (nth i m 0)) (seq 0 l).

(** [CIDRMask(ones, bits)] *)
Fixpoint CIDRMask_fill (l : nat) (n : Z) : IPMask :=
  match l with
  | O => []
  | S l' =>
      if 8 <=? n then 255 :: CIDRMask_fill l' (n - 8)
      else Z.lxor 255 (Z.shiftr 255 n) :: CIDRMask_fill l' 0
  end.

Definition CIDRMask (ones bits : Z) : IPMask :=
  if negb (bits =? 32) && negb (bits =? 128) then []
  else if (ones <? 0) || (bits <? ones) then []
  else CIDRMask_fill (Z.to_nat (bits / 8)) ones.

(** [ip.Mask(mask)] *)
Definition Mask (ip : IP) (mask : IPMask) : IP :=
  let mask := if (length mask =? IPv6len)%nat && (length ip =? IPv4len)%nat
                 && allFF (firstn 12 mask)
              then skipn 12 mask else mask in
  let ip := if (length mask =? IPv4len)%nat && (length ip =? IPv6len)%nat
               && bytes_Equal (firstn 12 ip) v4InV6Prefix
            then skipn 12 ip else ip in
  if negb (length ip =? length mask)%nat then []
  else map (fun i => Z.land (nth i ip 0) (nth i mask 0)) (seq 0 (length ip)).

(** *** [netip.ParseAddr], the parser behind [net.ParseIP] and
    [net.ParseCIDR] *)

(** A parsed address: IPv4 (4 bytes) or IPv6 (16 bytes and a zone). *)
Inductive Addr :=
| Addr4 (b : list Z)
| Addr6 (b : list Z) (zone : string).

Definition Addr_Zone (a : Addr) : string :=
  match a with Addr4 _ => EmptyString | Addr6 _ z => z end.
Definition Addr_BitLen (a : Addr) : Z :=
  match a with Addr4 _ => 32 | Addr6 _ _ => 128 end.
Definition Addr_As16 (a : Addr) : list Z :=
  match a with Addr4 b => v4InV6Prefix ++ b | Addr6 b _ => b end.

Definition isDigit (c : ascii) : bool :=
  (48 <=? byte_of c) && (byte_of c <=? 57).

Definition isDot (c : ascii) : bool := Ascii.eqb c "."%char.
Definition isColon (c : ascii) : bool := Ascii.eqb c ":"%char.
Definition isPercent (c : ascii) : bool := Ascii.eqb c "%"%char.

Definition isEmpty (s : string) : bool :=
  match s with EmptyString => true | String _ _ => false end.

(** [parseIPv4Fields]: [first] is [i == 0], [prevDot] is
    [s[i-1] == '.'], [fields] holds the octets stored so far
    ([pos = length fields]). *)
Fixpoint parseIPv4Fields_from (s : string) (first prevDot : bool)
    (val : Z) (digLen : nat) (fields : list Z) : option (list Z) :=
  match s with
  | EmptyString =>
      if (length fields <? 3)%nat then None else Some (fields ++ [val])
  | String c s' =>
      if isDigit c then
        if (digLen =? 1)%nat && (val =? 0) then None
        else
          let val := val * 10 + (byte_of c - 48) in
          if 255 <? val then None
          else parseIPv4Fields_from s' false false val (S digLen) fields
      else if isDot c then
        if first || isEmpty s' || prevDot then None
        else if (length fields =? 3)%nat then None
        else parseIPv4Fields_from s' false true 0 0%nat (fields ++ [val])
      else None
  end.

Definition parseIPv4Fields (s : string) : option (list Z) :=
  parseIPv4Fields_from s true false 0 0%nat [].

Definition parseIPv4 (s : string) : option Addr :=
  match parseIPv4Fields s with
  | Some f => Some (Addr4 f)
  | None => None
  end.

Definition hexval (c : ascii) : option Z :=
  let n := byte_of c in
  if (48 <=? n) && (n <=? 57) then Some (n - 48)
  else if (97 <=? n) && (n <=? 102) then Some (n - 97 + 10)
  else if (65 <=? n) && (n <=? 70) then Some (n - 65 + 10)
  else None.

(** The inner loop of [parseIPv6]: one group of hex digits.  [acc] is a
    [uint32]; the result is [(off, acc, s[off:])]. *)
Fixpoint parseIPv6_hex (s : string) (off : nat) (acc : Z)
    : option (nat * Z * string) :=
  match s with
  | EmptyString => Some (off, acc, EmptyString)
  | String c s' =>
      match hexval c with
      | Some d =>
          let acc := (Z.shiftl acc 4 + d) mod 2 ^ 32 in
          if (3 <? off)%nat then None
          else if 65535 <? acc then None
          else parseIPv6_hex s' (S off) acc
      | None => Some (off, acc, s)
      end
  end.

Definition isNone {A} (o : option A) : bool :=
  match o with None => true | Some _ => false end.

Definition startsWith (p : ascii -> bool) (s : string) : bool :=
  match s with EmptyString => false | String c _ => p c end.

(** The outer loop of [parseIPv6], [for i < 16].  [ip] holds the bytes
    written so far ([i = length ip]); every round that goes on writes two
    bytes, so eight rounds always suffice.  The result is the rest of the
    string, the bytes and the position of the ellipsis. *)
Fixpoint parseIPv6_groups (rounds : nat) (s : string) (ip : list Z)
    (ellipsis : option nat) : option (string * list Z * option nat) :=
  if (16 <=? length ip)%nat then Some (s, ip, ellipsis)
  else
    match rounds with
    | O => None
    | S rounds' =>
        match parseIPv6_hex s 0 0 with
        | None => None
        | Some (off, acc, rest) =>
            if (off =? 0)%nat then None
            else if startsWith isDot rest then
              if isNone ellipsis && negb (length ip =? 12)%nat then None
              else if (16 <? length ip + 4)%nat then None
              else
                match parseIPv4Fields s with
                | None => None
                | Some f => Some (EmptyString, ip ++ f, ellipsis)
                end
            else
              let ip := ip ++ [Z.shiftr acc 8 mod 256; acc mod 256] in
              match rest with
              | EmptyString => Some (EmptyString, ip, ellipsis)
              | String c rest1 =>
                  if negb (isColon c) then None
                  else
                    match rest1 with
                    | EmptyString => None
                    | String c1 rest2 =>
                        if isColon c1 then
                          match ellipsis with
                          | Some _ => None
                          | None =>
                              if isEmpty rest2
                              then Some (EmptyString, ip, Some (length ip))
                              else parseIPv6_groups rounds' rest2 ip
                                     (Some (length ip))
                          end
                        else parseIPv6_groups rounds' rest1 ip ellipsis
                    end
              end
        end
    end.

(** After the loop: the whole string must be used, and a short address
    is widened at the ellipsis. *)
Definition parseIPv6_finish (r : string * list Z * option nat)
    : option (list Z) :=
  let '(s, ip, ellipsis) := r in
  if negb (isEmpty s) then None
  else if (length ip <? 16)%nat then
    match ellipsis with
    | None => None
    | Some e => Some (firstn e ip ++ repeat 0 (16 - length ip)%nat ++ skipn e ip)
    end
  else
    match ellipsis with
    | Some _ => None
    | None => Some ip
    end.

Definition parseIPv6 (s_in : string) : option Addr :=
  let '(s, zone, found) := strings.CutByte s_in "%"%char in
  if found && isEmpty zone then None
  else
    match s with
    | String c0 (String c1 s2) =>
        if isColon c0 && isColon c1 then
          if isEmpty s2 then Some (Addr6 IPv6unspecified zone)
          else
            match parseIPv6_groups 8 s2 [] (Some 0%nat) with
            | None => None
            | Some r =>
                match parseIPv6_finish r with
                | Some b => Some (Addr6 b zone)
                | None => None
                end
            end
        else
          match parseIPv6_groups 8 s [] None with
          | None => None
          | Some r =>
              match parseIPv6_finish r with
              | Some b => Some (Addr6 b zone)
              | None => None
              end
          end
    | _ =>
        match parseIPv6_groups 8 s [] None with
        | None => None
        | Some r =>
            match parseIPv6_finish r with
            | Some b => Some (Addr6 b zone)
            | None => None
            end
        end
    end.

(** [netip.ParseAddr]: the first of ['.'], [':'] and ['%'] in the string
    selects the parser. *)
Fixpoint ParseAddr_from (s_in s : string) : option Addr :=
  match s with
  | EmptyString => None
  | String c s' =>
      if isDot c then parseIPv4 s_in
      else if isColon c then parseIPv6 s_in
      else if isPercent c then None
      else ParseAddr_from s_in s'
  end.

Definition ParseAddr (s : string) : option Addr := ParseAddr_from s s.

(** [net.ParseIP]: always the 16-byte form; [None] is Go's [nil]. *)
Definition ParseIP (s : string) : option IP :=
  match ParseAddr s with
  | Some a => if isEmpty (Addr_Zone a) then Some (Addr_As16 a) else None
  | None => None
  end.

(** [dtoi]: a decimal number at the start of [s]; the result is
    [(n, i, ok)]. *)
Fixpoint dtoi_from (s : string) (n : Z) (i : nat) : Z * nat * bool :=
  match s with
  | EmptyString => if (i =? 0)%nat then (0, 0%nat, false) else (n, i, true)
  | String c s' =>
      if isDigit c then
        let n := n * 10 + (byte_of c - 48) in
        if 16777215 <=? n then (16777215, i, false)
        else dtoi_from s' n (S i)
      else if (i =? 0)%nat then (0, 0%nat, false) else (n, i, true)
  end.

Definition dtoi (s : string) : Z * nat * bool := dtoi_from s 0 0%nat.

(** [net.ParseCIDR]: only the network is kept by the plugin. *)
Definition ParseCIDR (s : string) : option IPNet :=
  let '(addr, mask, found) := strings.CutByte s "/"%char in
  if negb found then None
  else
    match ParseAddr addr with
    | None => None
    | Some ipAddr =>
        if negb (isEmpty (Addr_Zone ipAddr)) then None
        else
          let '(n, i, ok) := dtoi mask in
          if negb ok || negb (i =? String.length mask)%nat
             || (n <? 0) || (Addr_BitLen ipAddr <? n)
          then None
          else
            let m := CIDRMask n (Addr_BitLen ipAddr) in
            Some {| IPNet_IP := Mask (Addr_As16 ipAddr) m; IPNet_Mask := m |}
    end.

End net.

(** ** Package [net/textproto]: canonical header keys *)
Module textproto.

Definition isLower (c : ascii) : bool := (97 <=? byte_of c) && (byte_of c <=? 122).
Definition isUpper (c : ascii) : bool := (65 <=? byte_of c) && (byte_of c <=? 90).

(** The token bytes of RFC 7230. *)
Definition validHeaderFieldByte (c : ascii) : bool :=
  isLower c || isUpper c || net.isDigit c
  || existsb (Ascii.eqb c)
       ["!"; "#"; "$"; "%"; "&"; "'"; "*"; "+"; "-"; "."; "^"; "_"; "`"; "|"; "~"]%char.

Fixpoint all_bytes (p : ascii -> bool) (s : string) : bool :=
  match s with
  | EmptyString => true
  | String c s' => p c && all_bytes p s'
  end.

(** First letter and every letter after a dash in upper case, the other
    letters in lower case. *)
Fixpoint canonical_from (s : string) (upper : bool) : string :=
  match s with
  | EmptyString => EmptyString
  | String c s' =>
      let c' :=
        if upper && isLower c then ascii_of_N (N_of_ascii c - 32)
        else if negb upper && isUpper c then ascii_of_N (N_of_ascii c + 32)
        else c in
      String c' (canonical_from s' (Ascii.eqb c' "-"%char))
  end.

(** [textproto.CanonicalMIMEHeaderKey]: a key with a byte that is not a
    token byte is returned unchanged. *)
Definition CanonicalMIMEHeaderKey (s : string) : string :=
  if all_bytes validHeaderFieldByte s then canonical_from s true else s.

End textproto.

(** ** Package [net/http]: the request as the plugin reads it *)
Module http.

(** [http.Header] is [map[string][]string], keyed by canonical keys. *)
Abbreviation Header := (gmap string (list string)).

(** [h.Get(key)]: the first value stored under the canonical form of
    [key], or the empty string. *)
Definition Header_Get (h : Header) (key : string) : string :=
  match h !! textproto.CanonicalMIMEHeaderKey key with
  | Some (v :: _) => v
  | _ => EmptyString
  end.

(** [h.Add(key, value)] *)
Definition Header_Add (h : Header) (key value : string) : Header :=
  let k := textproto.CanonicalMIMEHeaderKey key in
  <[k := default [] (h !! k) ++ [value]]> h.

(** The fields of [*http.Request] the plugin reads: [request.Host], the
    string [request.URL.RequestURI()] (path and query of the request
    target) and [request.Header]. *)
Record Request := {
  Host : string;
  RequestURI : string;
  Header_ : Header
}.

End http.

(** ** Package [regexp]

    The plugin compiles each configured pattern with [regexp.Compile] and
    tests the composed URL with [Regexp.MatchString].  The decision logic
    of the plugin is independent of the syntax of patterns, so the package
    is an interface here; [MiniRegexp] below implements it for a fragment
    of the pattern syntax. *)
Module regexp.

Class Lib := {
  Regexp : Type;
  Error : Type;
  Compile : string -> Regexp + Error;
  MatchString : Regexp -> string -> bool
}.

End regexp.

(** ** What a handler does

    [ServeHTTP] answers a request through its [http.ResponseWriter] and the
    next handler of the chain.  A call is modelled by the sequence of the
    calls it makes, in order: log lines (the format string, or the text of
    a logged error), pattern evaluations, [responseWriter.WriteHeader] and
    [next.ServeHTTP]. *)
Section Handler.
Context {R : regexp.Lib}.

Inductive event :=
| EvLog (format : string)
| EvMatchString (regex : regexp.Regexp) (s : string)
| EvWriteHeader (statusCode : Z)
| EvNext (request : http.Request).

(** A block of statements: the calls made, and [Some a] when control
    reaches the end of the block with value [a], [None] when the block
    executed [return]. *)
Definition Handler (A : Type) : Type := list event * option A.

Definition ret {A} (a : A) : Handler A := ([], Some a).

Definition bind {A B} (m : Handler A) (k : A -> Handler B) : Handler B :=
  match m with
  | (t, None) => (t, None)
  | (t, Some a) => let '(t', r) := k a in (t ++ t', r)
  end.

(** Go's [return] in a function without results. *)
Definition return_ : Handler unit := ([], None).

Definition call (e : event) : Handler unit := ([e], Some tt).

Definition log_Printf (format : string) : Handler unit := call (EvLog format).
Definition log_Println (text : string) : Handler unit := call (EvLog text).
Definition WriteHeader (statusCode : Z) : Handler unit :=
  call (EvWriteHeader statusCode).
Definition next_ServeHTTP (request : http.Request) : Handler unit :=
  call (EvNext request).
Definition MatchString (regex : regexp.Regexp) (s : string) : Handler bool :=
  ([EvMatchString regex s], Some (regexp.MatchString regex s)).

(** [for _, x := range l { body }] *)
Fixpoint for_range {A} (l : list A) (body : A -> Handler unit) : Handler unit :=
  match l with
  | [] => ret tt
  | x :: l' => bind (body x) (fun _ => for_range l' body)
  end.

Definition when (b : bool) (m : Handler unit) : Handler unit :=
  if b then m else ret tt.

(** The calls of a whole handler invocation. *)
Definition calls {A} (m : Handler A) : list event := fst m.

(** Status codes written, requests handed to the next handler, and
    pattern evaluations, each in order. *)
Fixpoint written (t : list event) : list Z :=
  match t with
  | [] => []
  | EvWriteHeader c :: t' => c :: written t'
  | _ :: t' => written t'
  end.

Fixpoint forwarded (t : list event) : list http.Request :=
  match t with
  | [] => []
  | EvNext r :: t' => r :: forwarded t'
  | _ :: t' => forwarded t'
  end.

Fixpoint evaluated (t : list event) : list (regexp.Regexp * string) :=
  match t with
  | [] => []
  | EvMatchString r s :: t' => (r, s) :: evaluated t'
  | _ :: t' => evaluated t'
  end.

End Handler.

Declare Scope handler_scope.
Delimit Scope handler_scope with handler.
Notation "x <- m ;; k" := (bind m (fun x => k))
  (at level 100, m at next level, right associativity) : handler_scope.
Notation "m ;; k" := (bind m (fun _ => k))
  (at level 100, right associativity) : handler_scope.

(** ** The IP helpers

    [InitializePrivateIPBlocks], [IsPrivateIP], [IsIpInList], [ParseIP] and
    [CollectRemoteIP] have the same text in [traefik_block_regex_urls.go]
    and in the revision with substring rules that still carries them. *)
Module iphelpers.

Inductive error :=
| ErrUnableToParse (address : string)   (* "unable to parse IP from address [%s]" *)
| ErrParsingFailed (err : error).       (* "parsing failed: %s" *)

(** [err.Error()] *)
Fixpoint Error (e : error) : string :=
  match e with
  | ErrUnableToParse address =>
      "unable to parse IP from address [" +:+ address +:+ "]"
  | ErrParsingFailed err => "parsing failed: " +:+ Error err
  end.

Definition cidrs : list string :=
  [ "127.0.0.0/8";    (* IPv4 loopback *)
    "10.0.0.0/8";     (* RFC1918 *)
    "172.16.0.0/12";  (* RFC1918 *)
    "192.168.0.0/16"; (* RFC1918 *)
    "169.254.0.0/16"; (* RFC3927 link-local *)
    "::1/128";        (* IPv6 loopback *)
    "fe80::/10";      (* IPv6 link-local *)
    "fc00::/7"        (* IPv6 unique local addr *) ].

(** The loop of [InitializePrivateIPBlocks]; [None] is the [panic] on a
    CIDR string that does not parse. *)
Fixpoint InitializePrivateIPBlocks_loop (l : list string)
    (privateIPBlocks : list net.IPNet) : option (list net.IPNet) :=
  match l with
  | [] => Some privateIPBlocks
  | cidr :: l' =>
      match net.ParseCIDR cidr with
      | None => None
      | Some block => InitializePrivateIPBlocks_loop l' (privateIPBlocks ++ [block])
      end
  end.

Definition InitializePrivateIPBlocks : option (list net.IPNet) :=
  InitializePrivateIPBlocks_loop cidrs [].

Fixpoint IsIpInList (ip : net.IP) (list : list net.IPNet) : bool :=
  match list with
  | [] => false
  | block :: list' =>
      if net.Contains block ip then true else IsIpInList ip list'
  end.

Definition IsPrivateIP (ip : net.IP) (privateIPBlocks : list net.IPNet) : bool :=
  if net.IsLoopback ip || net.IsLinkLocalUnicast ip || net.IsLinkLocalMulticast ip
  then true
  else IsIpInList ip privateIPBlocks.

Definition ParseIP (address : string) : net.IP + error :=
  match net.ParseIP address with
  | None => inr (ErrUnableToParse address)
  | Some ipAddress => inl ipAddress
  end.

(** One of the two loops of [CollectRemoteIP]: on the first value that
    does not parse, the list built so far is returned with the error.
    The list holds pointers to per-iteration variables that are never
    written again, so it is a list of addresses here. *)
Fixpoint CollectRemoteIP_loop (values : list string) (ipList : list net.IP)
    : list net.IP * option error :=
  match values with
  | [] => (ipList, None)
  | value :: values' =>
      match ParseIP value with
      | inr err => (ipList, Some (ErrParsingFailed err))
      | inl ipAddress => CollectRemoteIP_loop values' (ipList ++ [ipAddress])
      end
  end.

Definition splitFn (c : ascii) : bool := Ascii.eqb c ","%char.

(** [CollectRemoteIP]; the receiver is not used by the method. *)
Definition CollectRemoteIP (request : http.Request) : list net.IP * option error :=
  let ipList := [] in
  let xForwardedForValue := http.Header_Get (http.Header_ request) "X-Forwarded-For" in
  let xForwardedForIPs := strings.FieldsFunc xForwardedForValue splitFn in
  match CollectRemoteIP_loop xForwardedForIPs ipList with
  | (ipList, Some err) => (ipList, Some err)
  | (ipList, None) =>
      let xRealIpValue := http.Header_Get (http.Header_ request) "X-Real-IP" in
      let xRealIpIPs := strings.FieldsFunc xRealIpValue splitFn in
      CollectRemoteIP_loop xRealIpIPs ipList
  end.

End iphelpers.

(** ** What [New] returns, and the compile loop shared by every revision *)
Section Construction.
Context {R : regexp.Lib}.

Inductive new_error :=
| ErrRegexListEmpty                       (* "the regex list is empty" *)
| ErrCompilingRegex (regex : string) (compileError : regexp.Error).
                                          (* "error compiling regex %q: %w" *)

(** The handler, the error ([nil] handler), or a panic during the call. *)
Inductive result (A : Type) :=
| Ok (handler : A)
| Err (err : new_error)
| Panic.

(** [for index, regex := range config.Regex]: the slice [regexps] is
    filled front to back, one compiled pattern per configured string;
    the first pattern that does not compile ends [New] with an error. *)
Fixpoint compile_loop (regex : list string) (regexps : list regexp.Regexp)
    : list regexp.Regexp + new_error :=
  match regex with
  | [] => inl regexps
  | r :: regex' =>
      match regexp.Compile r with
      | inr compileError => inr (ErrCompilingRegex r compileError)
      | inl compiledRegex => compile_loop regex' (regexps ++ [compiledRegex])
      end
  end.

End Construction.

Arguments Ok {R A} handler.
Arguments Err {R A} err.
Arguments Panic {R A}.

(** ** [traefik_block_regex_urls.go]: regex rules with the exemption of
    private addresses

    The field [next] is the capability invoked by [next_ServeHTTP]; the
    start-up log lines of [New] (written when [SilentStartUp] is false) are
    left out. *)
Module BlockIP.
Section WithRegexp.
Context {R : regexp.Lib}.

Record traefik_block_regex_urls := {
  name : string;
  allowLocalRequests : bool;
  privateIPRanges : list net.IPNet;
  regexps : list regexp.Regexp;
  silentStartUp : bool;
  statusCode : Z
}.

Record Config := {
  AllowLocalRequests : bool;
  Regex : list string;
  SilentStartUp : bool;
  StatusCode : Z
}.

Definition CreateConfig : Config :=
  {| AllowLocalRequests := true;
     Regex := [];
     SilentStartUp := true;
     StatusCode := 403 |}.

Definition New (config : Config) (name_ : string)
    : result traefik_block_regex_urls :=
  if (length (Regex config) =? 0)%nat then Err ErrRegexListEmpty
  else
    match compile_loop (Regex config) [] with
    | inr err => Err err
    | inl regexps_ =>
        match iphelpers.InitializePrivateIPBlocks with
        | None => Panic
        | Some blocks =>
            Ok {| name := name_;
                  allowLocalRequests := AllowLocalRequests config;
                  privateIPRanges := blocks;
                  regexps := regexps_;
                  silentStartUp := SilentStartUp config;
                  statusCode := StatusCode config |}
        end
    end.

(** The inner loop of [ServeHTTP] over the collected addresses, with its
    [break]. *)
Fixpoint isPrivateIp_loop (ipAddresses : list net.IP)
    (privateIPRanges_ : list net.IPNet) (isPrivateIp : bool) : bool :=
  match ipAddresses with
  | [] => isPrivateIp
  | ipAddress :: ipAddresses' =>
      let isPrivateIp :=
        iphelpers.IsPrivateIP ipAddress privateIPRanges_ && isPrivateIp in
      if negb isPrivateIp then isPrivateIp
      else isPrivateIp_loop ipAddresses' privateIPRanges_ isPrivateIp
  end.

(** The body of [for _, regex := range blockUrls.regexps]. *)
Definition ServeHTTP_round (blockUrls : traefik_block_regex_urls)
    (request : http.Request) (fullUrl : string) (regex : regexp.Regexp)
    : Handler unit :=
  (matched <- MatchString regex fullUrl ;;
   when matched (
     let '(ipAddresses, err) := iphelpers.CollectRemoteIP request in
     match err with
     | Some e =>
         log_Println "Failed to collect remote ip..." ;;
         log_Println (iphelpers.Error e)
     | None => ret tt
     end ;;
     when (negb (allowLocalRequests blockUrls)) (
       log_Printf "%s: Request (%s %s) denied for IPs %s" ;;
       WriteHeader (statusCode blockUrls) ;;
       return_) ;;
     let isPrivateIp :=
       isPrivateIp_loop ipAddresses (privateIPRanges blockUrls) true in
     when (negb isPrivateIp) (
       log_Printf "%s: Request (%s %s) denied for IPs %s" ;;
       WriteHeader (statusCode blockUrls) ;;
       return_)))%handler.

Definition ServeHTTP (blockUrls : traefik_block_regex_urls)
    (request : http.Request) : Handler unit :=
  (let fullUrl := http.Host request +:+ http.RequestURI request in
   log_Printf "fullURL: (%s)" ;;
   for_range (regexps blockUrls) (ServeHTTP_round blockUrls request fullUrl) ;;
   next_ServeHTTP request)%handler.

End WithRegexp.
End BlockIP.

(** ** First revision in [part_002]: substring rules, then regex rules;
    [allowLocalRequests] and the IP helpers are carried but unused *)
Module BlockStringsIP.
Section WithRegexp.
Context {R : regexp.Lib}.

Record traefik_block_regex_urls := {
  name : string;
  allowLocalRequests : bool; (* this field is unused *)
  privateIPRanges : list net.IPNet;
  regexps : list regexp.Regexp;
  matchStrings : list string;
  silentStartUp : bool;
  statusCode : Z
}.

Record Config := {
  AllowLocalRequests : bool; (* this field is unused *)
  Regex : list string;
  MatchStrings : list string;
  SilentStartUp : bool;
  StatusCode : Z
}.

Definition CreateConfig : Config :=
  {| AllowLocalRequests := true;
     Regex := [];
     MatchStrings := [];
     SilentStartUp := true;
     StatusCode := 403 |}.

Definition New (config : Config) (name_ : string)
    : result traefik_block_regex_urls :=
  match compile_loop (Regex config) [] with
  | inr err => Err err
  | inl regexps_ =>
      match iphelpers.InitializePrivateIPBlocks with
      | None => Panic
      | Some blocks =>
          Ok {| name := name_;
                allowLocalRequests := AllowLocalRequests config;
                privateIPRanges := blocks;
                regexps := regexps_;
                matchStrings := MatchStrings config;
                silentStartUp := SilentStartUp config;
                statusCode := StatusCode config |}
      end
  end.

Definition ServeHTTP (blockUrls : traefik_block_regex_urls)
    (request : http.Request) : Handler unit :=
  (let fullUrl := http.Host request +:+ http.RequestURI request in
   for_range (matchStrings blockUrls) (fun str =>
     when (strings.Contains fullUrl str) (
       log_Printf "URL is blocked (substring match): (%s): module=%s" ;;
       WriteHeader (statusCode blockUrls) ;;
       return_)) ;;
   for_range (regexps blockUrls) (fun regex =>
     matched <- MatchString regex fullUrl ;;
     when matched (
       log_Printf "URL is blocked (regex match): (%s) module=%s" ;;
       WriteHeader (statusCode blockUrls) ;;
       return_)) ;;
   next_ServeHTTP request)%handler.

End WithRegexp.
End BlockStringsIP.

(** ** Second revision in [part_002]: substring rules, then regex rules *)
Module BlockStrings.
Section WithRegexp.
Context {R : regexp.Lib}.

Record traefik_block_regex_urls := {
  name : string;
  regexps : list regexp.Regexp;
  matchStrings : list string;
  silentStartUp : bool;
  statusCode : Z
}.

Record Config := {
  Regex : list string;
  MatchStrings : list string;
  SilentStartUp : bool;
  StatusCode : Z
}.

Definition CreateConfig : Config :=
  {| Regex := [];
     MatchStrings := [];
     SilentStartUp := true;
     StatusCode := 403 |}.

(** [matchStrings] is a copy of [config.MatchStrings], made before the
    patterns are compiled. *)
Definition New (config : Config) (name_ : string)
    : result traefik_block_regex_urls :=
  let matchStrings_ := MatchStrings config in
  match compile_loop (Regex config) [] with
  | inr err => Err err
  | inl regexps_ =>
      Ok {| name := name_;
            regexps := regexps_;
            matchStrings := matchStrings_;
            silentStartUp := SilentStartUp config;
            statusCode := StatusCode config |}
  end.

Definition ServeHTTP (blockUrls : traefik_block_regex_urls)
    (request : http.Request) : Handler unit :=
  (let fullUrl := http.Host request +:+ http.RequestURI request in
   for_range (matchStrings blockUrls) (fun str =>
     when (strings.Contains fullUrl str) (
       log_Printf "URL is blocked (substring match): (%s): module=%s" ;;
       WriteHeader (statusCode blockUrls) ;;
       return_)) ;;
   for_range (regexps blockUrls) (fun regex =>
     matched <- MatchString regex fullUrl ;;
     when matched (
       log_Printf "URL is blocked (regex match): (%s) module=%s" ;;
       WriteHeader (statusCode blockUrls) ;;
       return_)) ;;
   next_ServeHTTP request)%handler.

End WithRegexp.
End BlockStrings.

(** ** Third revision in [part_002]: exact-match rules, then regex rules *)
Module BlockExact.
Section WithRegexp.
Context {R : regexp.Lib}.

Record traefik_block_regex_urls := {
  name : string;
  regexps : list regexp.Regexp;
  exactMatch : list string;
  silentStartUp : bool;
  statusCode : Z
}.

Record Config := {
  Regex : list string;
  ExactMatch : list string;
  SilentStartUp : bool;
  StatusCode : Z
}.

Definition CreateConfig : Config :=
  {| Regex := [];
     ExactMatch := [];
     SilentStartUp := true;
     StatusCode := 403 |}.

Definition New (config : Config) (name_ : string)
    : result traefik_block_regex_urls :=
  match compile_loop (Regex config) [] with
  | inr err => Err err
  | inl regexps_ =>
      Ok {| name := name_;
            regexps := regexps_;
            exactMatch := ExactMatch config;
            silentStartUp := SilentStartUp config;
            statusCode := StatusCode config |}
  end.

Definition ServeHTTP (blockUrls : traefik_block_regex_urls)
    (request : http.Request) : Handler unit :=
  (let fullUrl := http.Host request +:+ http.RequestURI request in
   when (slices.Contains (exactMatch blockUrls) fullUrl) (
     log_Printf "URL is blocked (exact match): (%s): module=%s" ;;
     WriteHeader (statusCode blockUrls) ;;
     return_) ;;
   for_range (regexps blockUrls) (fun regex =>
     matched <- MatchString regex fullUrl ;;
     when matched (
       log_Printf "URL is blocked (regex match): (%s) module=%s" ;;
       WriteHeader (statusCode blockUrls) ;;
       return_)) ;;
   next_ServeHTTP request)%handler.

End WithRegexp.
End BlockExact.

(** ** An implementation of the [regexp] interface

    A fragment of the pattern syntax of Go's [regexp]: literal bytes, [.],
    [^], [$], groups, [|], and the repetitions [*], [+], [?] (with their
    non-greedy forms, which accept the same strings).  Classes, counted
    repetitions, flags and escapes of letters or digits are outside the
    fragment and reported as [Unsupported]; patterns and subjects are
    ASCII.  It is used where a statement is evaluated on a concrete
    configuration. *)
Module MiniRegexp.

Inductive re :=
| Empty
| Lit (c : ascii)
| AnyNotNL
| BeginText
| EndText
| Cat (a b : re)
| Alt (a b : re)
| Star (a : re).

Inductive error :=
| MissingParen            (* missing closing ) *)
| UnexpectedParen         (* unexpected ) *)
| MissingRepeatArgument   (* missing argument to repetition operator *)
| InvalidRepeatOp         (* invalid nested repetition operator *)
| TrailingBackslash       (* trailing backslash at end of expression *)
| Unsupported.            (* outside the fragment *)

(** An open group: the alternatives closed so far and the items of the
    alternative being read, both latest first. *)
Definition frame : Type := list re * list re.

Definition concat (items : list re) : re :=
  fold_left (fun acc x => match acc with Empty => x | _ => Cat x acc end)
    items Empty.

Definition close (f : frame) : re :=
  fold_left (fun acc a => Alt a acc) (fst f) (concat (snd f)).

(** Whether the previous token was a repetition, and whether it already
    took its non-greedy mark. *)
Inductive repeat_state := NoRepeat | Repeated | RepeatedLazy.

Definition isAlnum (c : ascii) : bool :=
  net.isDigit c || textproto.isLower c || textproto.isUpper c.

Definition repeat (op : ascii) (x : re) : re :=
  if Ascii.eqb op "*"%char then Star x
  else if Ascii.eqb op "+"%char then Cat x (Star x)
  else Alt x Empty.

Fixpoint parse (s : string) (stack : list frame) (cur : frame)
    (rep : repeat_state) : re + error :=
  match s with
  | EmptyString =>
      match stack with
      | [] => inl (close cur)
      | _ :: _ => inr MissingParen
      end
  | String c s' =>
      if Ascii.eqb c "("%char then
        if net.startsWith (Ascii.eqb "?"%char) s' then inr Unsupported
        else parse s' (cur :: stack) ([], []) NoRepeat
      else if Ascii.eqb c ")"%char then
        match stack with
        | [] => inr UnexpectedParen
        | (alts, items) :: stack' =>
            parse s' stack' (alts, close cur :: items) NoRepeat
        end
      else if Ascii.eqb c "|"%char then
        parse s' stack (concat (snd cur) :: fst cur, []) NoRepeat
      else if Ascii.eqb c "*"%char || Ascii.eqb c "+"%char || Ascii.eqb c "?"%char then
        match rep with
        | Repeated =>
            if Ascii.eqb c "?"%char then parse s' stack cur RepeatedLazy
            else inr InvalidRepeatOp
        | RepeatedLazy => inr InvalidRepeatOp
        | NoRepeat =>
            match snd cur with
            | [] => inr MissingRepeatArgument
            | x :: items => parse s' stack (fst cur, repeat c x :: items) Repeated
            end
        end
      else if Ascii.eqb c "."%char then
        parse s' stack (fst cur, AnyNotNL :: snd cur) NoRepeat
      else if Ascii.eqb c "^"%char then
        parse s' stack (fst cur, BeginText :: snd cur) NoRepeat
      else if Ascii.eqb c "$"%char then
        parse s' stack (fst cur, EndText :: snd cur) NoRepeat
      else if Ascii.eqb c "\"%char then
        match s' with
        | EmptyString => inr TrailingBackslash
        | String e s'' =>
            if isAlnum e || (128 <=? byte_of e) then inr Unsupported
            else parse s'' stack (fst cur, Lit e :: snd cur) NoRepeat
        end
      else if Ascii.eqb c "["%char || Ascii.eqb c "{"%char || (128 <=? byte_of c) then
        inr Unsupported
      else parse s' stack (fst cur, Lit c :: snd cur) NoRepeat
  end.

Definition Compile (expr : string) : re + error :=
  parse expr [] ([], []) NoRepeat.

(** [matches r bot s k]: some prefix of [s] is in the language of [r]
    and the continuation accepts what follows; [bot] says that [s] is
    the whole text.  A round of [Star] that uses no byte is not taken:
    it reaches nothing new. *)
Fixpoint matches (r : re) (bot : bool) (s : string)
    (k : bool -> string -> bool) : bool :=
  match r with
  | Empty => k bot s
  | Lit c =>
      match s with
      | String c' s' => Ascii.eqb c c' && k false s'
      | EmptyString => false
      end
  | AnyNotNL =>
      match s with
      | String c' s' => negb (byte_of c' =? 10) && k false s'
      | EmptyString => false
      end
  | BeginText => bot && k bot s
  | EndText => net.isEmpty s && k bot s
  | Cat a b => matches a bot s (fun bot' s' => matches b bot' s' k)
  | Alt a b => matches a bot s k || matches b bot s k
  | Star a =>
      (fix star (n : nat) (bot : bool) (s : string) : bool :=
         k bot s ||
         match n with
         | O => false
         | S n' =>
             matches a bot s (fun bot' s' =>
               (String.length s' <? String.length s)%nat && star n' bot' s')
         end) (String.length s) bot s
  end.

(** Unanchored search: a match may start at any offset. *)
Fixpoint search (r : re) (bot : bool) (s : string) : bool :=
  matches r bot s (fun _ _ => true) ||
  match s with
  | EmptyString => false
  | String _ s' => search r false s'
  end.

Definition MatchString (r : re) (s : string) : bool := search r true s.

Definition lib : regexp.Lib :=
  {| regexp.Regexp := re;
     regexp.Error := error;
     regexp.Compile := Compile;
     regexp.MatchString := MatchString |}.

End MiniRegexp.

(** ** Concrete configurations and requests, on [MiniRegexp] *)
Module Examples.

(** A request for [host] and request target [uri] whose headers were
    added one by one with [Header.Add]. *)
Definition request (host uri : string) (headers : list (string * string))
    : http.Request :=
  {| http.Host := host;
     http.RequestURI := uri;
     http.Header_ :=
       fold_left (fun h kv => http.Header_Add h (fst kv) (snd kv)) headers ∅ |}.

(** [CreateConfig()] with the given patterns, status code 404 and the
    given [AllowLocalRequests]. *)
Definition config (allow : bool) (patterns : list string)
    : BlockIP.Config :=
  {| BlockIP.AllowLocalRequests := allow;
     BlockIP.Regex := patterns;
     BlockIP.SilentStartUp := true;
     BlockIP.StatusCode := 404 |}.

Definition wp : list string := ["^localhost/wp(.*)"].

Definition wp_login (headers : list (string * string)) : http.Request :=
  request "localhost" "/wp-login" headers.

End Examples.

(** ** The vocabulary of the properties *)
Section Vocabulary.
Context {R : regexp.Lib}.

(** The composed URL: host followed by the request target. *)
Definition composed_url (request : http.Request) : string :=
  http.Host request +:+ http.RequestURI request.

(** The configured pattern compiles and matches the URL somewhere. *)
Definition regex_matches (pattern url : string) : Prop :=
  exists re, regexp.Compile pattern = inl re /\ regexp.MatchString re url = true.

Definition some_regex_matches (patterns : list string) (url : string) : Prop :=
  exists pattern, In pattern patterns /\ regex_matches pattern url.

Definition no_regex_matches (patterns : list string) (url : string) : Prop :=
  forall pattern, In pattern patterns -> ~ regex_matches pattern url.

Definition fails_to_compile (pattern : string) : Prop :=
  exists e, regexp.Compile pattern = inr e.

(** The rule set of a handler is the whole configured list, compiled. *)
Definition compiled_from (patterns : list string) (regexps : list regexp.Regexp) : Prop :=
  Forall2 (fun pattern re => regexp.Compile pattern = inl re) patterns regexps.

(** [str] occurs in [url]. *)
Definition substring_of (str url : string) : Prop :=
  exists before after, url = before +:+ str +:+ after.

Definition some_string_occurs (strs : list string) (url : string) : Prop :=
  exists str, In str strs /\ substring_of str url.

Definition no_string_occurs (strs : list string) (url : string) : Prop :=
  forall str, In str strs -> ~ substring_of str url.

(** The reserved table: the network of each hardcoded CIDR string. *)
Definition in_reserved_table (ip : net.IP) : Prop :=
  exists cidr block,
    In cidr iphelpers.cidrs /\ net.ParseCIDR cidr = Some block
    /\ net.Contains block ip = true.

(** A private address: loopback, link-local unicast or multicast, or in
    the reserved table. *)
Definition private_address (ip : net.IP) : Prop :=
  net.IsLoopback ip = true \/ net.IsLinkLocalUnicast ip = true
  \/ net.IsLinkLocalMulticast ip = true \/ in_reserved_table ip.

(** The two outcomes of a call: the status code is written once and the
    next handler is not invoked; or no status code is written and the
    next handler is invoked once, with the request itself. *)
Definition Blocked (t : list event) (statusCode : Z) : Prop :=
  written t = [statusCode] /\ forwarded t = [].

Definition Forwarded (t : list event) (request : http.Request) : Prop :=
  written t = [] /\ forwarded t = [request].

(** Calls that neither answer nor forward. *)
Definition quiet (t : list event) : Prop :=
  written t = [] /\ forwarded t = [].

(** Calls that, besides, evaluate no pattern. *)
Definition silent (t : list event) : Prop :=
  quiet t /\ evaluated t = [].

(** The exemption test of [ServeHTTP] in [traefik_block_regex_urls.go]:
    the option is on and every collected address passes [IsPrivateIP]. *)
Definition exempt (blockUrls : BlockIP.traefik_block_regex_urls)
    (request : http.Request) : bool :=
  BlockIP.allowLocalRequests blockUrls
  && forallb (fun ip => iphelpers.IsPrivateIP ip (BlockIP.privateIPRanges blockUrls))
       (fst (iphelpers.CollectRemoteIP request)).

(** The bytes of address literals: hex digits, dots and colons. *)
Definition address_byte (c : ascii) : bool :=
  match net.hexval c with
  | Some _ => true
  | None => net.isDot c || net.isColon c
  end.

Definition address_bytes (s : string) : bool :=
  textproto.all_bytes address_byte s.

(** The values of the two forwarding headers, split at commas, in the
    order [CollectRemoteIP] reads them. *)
Definition forwarded_for_tokens (request : http.Request) : list string :=
  strings.FieldsFunc
    (http.Header_Get (http.Header_ request) "X-Forwarded-For") iphelpers.splitFn.

Definition real_ip_tokens (request : http.Request) : list string :=
  strings.FieldsFunc
    (http.Header_Get (http.Header_ request) "X-Real-IP") iphelpers.splitFn.

(** The string has no comma, the separator of [CollectRemoteIP]. *)
Definition no_comma (s : string) : bool :=
  textproto.all_bytes (fun c => negb (iphelpers.splitFn c)) s.

(** A header value made of the given tokens separated by commas. *)
Definition comma_separated (tokens : list string) : string :=
  strings.Join tokens ",".

(** Each token parses to the address at the same position. *)
Definition parse_to (tokens : list string) (ips : list net.IP) : Prop :=
  Forall2 (fun token ip => net.ParseIP token = Some ip) tokens ips.


End Vocabulary.

(** ** The vocabulary of the further properties *)
Section FurtherVocabulary.
Context {R : regexp.Lib}.

(** The configured pattern compiles. *)
Definition compiles (pattern : string) : Prop :=
  exists re, regexp.Compile pattern = inl re.

(** The elements of [l] up to and including the first one that passes
    [p]; all of [l] when none does. *)
Fixpoint upto_first {A} (p : A -> bool) (l : list A) : list A :=
  match l with
  | [] => []
  | x :: l' => if p x then [x] else x :: upto_first p l'
  end.

(** The evaluations of the given compiled patterns on [url], in order. *)
Definition evaluations (regexps : list regexp.Regexp) (url : string)
    : list (regexp.Regexp * string) :=
  map (fun re => (re, url)) regexps.

(** A byte value. *)
Definition is_byte (x : Z) : Prop := 0 <= x < 256.

(** The IPv4 addresses [a.b.c.d] that count as private: 127/8, 10/8,
    172.16/12, 192.168/16, 169.254/16 and the link-local multicast
    addresses 224.0.0/24. *)
Definition private_v4 (a b c : Z) : bool :=
  (a =? 127) || (a =? 10)
  || ((a =? 172) && (16 <=? b) && (b <=? 31))
  || ((a =? 192) && (b =? 168))
  || ((a =? 169) && (b =? 254))
  || ((a =? 224) && (b =? 0) && (c =? 0)).

(** The IPv6 addresses that count as private, by their first two bytes:
    the loopback address, fe80::/10, fc00::/7 and the link-local multicast
    addresses ff_2::. *)
Definition private_v6 (ip : net.IP) : bool :=
  net.bytes_Equal ip net.IPv6loopback
  || ((nth 0 ip 0 =? 254) && (128 <=? nth 1 ip 0) && (nth 1 ip 0 <=? 191))
  || ((252 <=? nth 0 ip 0) && (nth 0 ip 0 <=? 253))
  || ((nth 0 ip 0 =? 255) && (nth 1 ip 0 mod 16 =? 2)).

(** The request with another header map. *)
Definition with_header (request : http.Request) (h : http.Header) : http.Request :=
  {| http.Host := http.Host request;
     http.RequestURI := http.RequestURI request;
     http.Header_ := h |}.


End FurtherVocabulary.

(** * Lemmas *)

(** ** Strings *)

Lemma append_cons (c : ascii) (s t : string) :
  String c s +:+ t = String c (s +:+ t).
Proof. reflexivity. Qed.

Lemma append_nil_l (s : string) : EmptyString +:+ s = s.
Proof. reflexivity. Qed.

Lemma append_nil_r (s : string) : s +:+ EmptyString = s.
Proof.
  induction s as [|c s IH]; [reflexivity | now rewrite append_cons, IH].
Qed.

Lemma append_assoc (a b c : string) : (a +:+ b) +:+ c = a +:+ (b +:+ c).
Proof.
  induction a as [|x a IH]; [reflexivity | now rewrite !append_cons, IH].
Qed.

Lemma HasPrefix_iff (s prefix : string) :
  strings.HasPrefix s prefix = true <-> exists after, s = prefix +:+ after.
Proof.
  revert s. induction prefix as [|a p IH]; intros s.
  - split; [intros _; now exists s | intros _; now destruct s].
  - destruct s as [|b s]; simpl.
    + split; [discriminate | intros [after H]; discriminate].
    + rewrite andb_true_iff, IH. split.
      * intros [Hab [after ->]]. apply Ascii.eqb_eq in Hab. subst. now exists after.
      * intros [after H]. rewrite append_cons in H. injection H as -> ->.
        split; [apply Ascii.eqb_refl | now exists after].
Qed.

Lemma Contains_iff (s substr : string) :
  strings.Contains s substr = true <-> substring_of substr s.
Proof.
  unfold substring_of. induction s as [|c s IH].
  - change (strings.Contains EmptyString substr)
      with (strings.HasPrefix EmptyString substr || false).
    rewrite orb_false_r, HasPrefix_iff. split.
    + intros [after H]. now exists EmptyString, after.
    + intros [[|x before] [after H]]; [now exists after | discriminate].
  - change (strings.Contains (String c s) substr)
      with (strings.HasPrefix (String c s) substr || strings.Contains s substr).
    rewrite orb_true_iff, HasPrefix_iff, IH. split.
    + intros [[after H] | [before [after H]]].
      * now exists EmptyString, after.
      * exists (String c before), after. now rewrite append_cons, H.
    + intros [[|x before] [after H]].
      * left. now exists after.
      * right. rewrite append_cons in H. injection H as -> ->. now exists before, after.
Qed.

Lemma slices_Contains_iff (l : list string) (v : string) :
  slices.Contains l v = true <-> In v l.
Proof.
  induction l as [|x l IH]; simpl.
  - split; [discriminate | tauto].
  - rewrite orb_true_iff, IH, String.eqb_eq. split; intros [H | H]; auto.
Qed.

(** ** Lists: the first element that satisfies a test *)

Lemma first_hit {A} (p : A -> bool) (l : list A) :
  (exists x, In x l /\ p x = true) ->
  exists l1 x l2, l = l1 ++ x :: l2 /\ p x = true /\ forall y, In y l1 -> p y = false.
Proof.
  induction l as [|a l IH]; intros [x [Hin Hp]]; [destruct Hin |].
  destruct (p a) eqn:Ha.
  - exists [], a, l. repeat split; [assumption | intros y []].
  - destruct IH as [l1 [y [l2 [-> [Hy Hl1]]]]].
    + destruct Hin as [-> | Hin]; [congruence | now exists x].
    + exists (a :: l1), y, l2. repeat split; [assumption |].
      intros z [<- | Hz]; auto.
Qed.
(** ** Calls of a handler *)
Section HandlerLemmas.
Context {R : regexp.Lib}.

Lemma written_app (a b : list event) : written (a ++ b) = written a ++ written b.
Proof.
  induction a as [|e a IH]; [reflexivity |].
  destruct e; simpl; rewrite IH; reflexivity.
Qed.

Lemma forwarded_app (a b : list event) :
  forwarded (a ++ b) = forwarded a ++ forwarded b.
Proof.
  induction a as [|e a IH]; [reflexivity |].
  destruct e; simpl; rewrite IH; reflexivity.
Qed.

Lemma evaluated_app (a b : list event) :
  evaluated (a ++ b) = evaluated a ++ evaluated b.
Proof.
  induction a as [|e a IH]; [reflexivity |].
  destruct e; simpl; rewrite IH; reflexivity.
Qed.

Lemma quiet_nil : quiet [].
Proof. split; reflexivity. Qed.

Lemma quiet_app (a b : list event) : quiet a -> quiet b -> quiet (a ++ b).
Proof.
  intros [Ha1 Ha2] [Hb1 Hb2]. split.
  - now rewrite written_app, Ha1, Hb1.
  - now rewrite forwarded_app, Ha2, Hb2.
Qed.

Lemma silent_nil : silent [].
Proof. split; [apply quiet_nil | reflexivity]. Qed.

Lemma silent_app (a b : list event) : silent a -> silent b -> silent (a ++ b).
Proof.
  intros [Ha1 Ha2] [Hb1 Hb2]. split.
  - now apply quiet_app.
  - now rewrite evaluated_app, Ha2, Hb2.
Qed.

Lemma bind_continue {A B} (m : Handler A) (k : A -> Handler B) t a :
  m = (t, Some a) -> bind m k = (t ++ fst (k a), snd (k a)).
Proof. intros ->. simpl. now destruct (k a). Qed.

Lemma bind_return {A B} (m : Handler A) (k : A -> Handler B) t :
  m = (t, None) -> bind m k = (t, None).
Proof. now intros ->. Qed.

(** A loop whose every round runs to its end runs to its end. *)
Lemma for_range_continue {A} (P : list event -> Prop) (l : list A)
    (body : A -> Handler unit) :
  P [] -> (forall a b, P a -> P b -> P (a ++ b)) ->
  (forall x, In x l -> exists t, body x = (t, Some tt) /\ P t) ->
  exists t, for_range l body = (t, Some tt) /\ P t.
Proof.
  intros Pnil Papp. induction l as [|x l IH]; intros Hbody.
  - exists []. now split.
  - destruct (Hbody x (or_introl eq_refl)) as [t [Hx Pt]].
    destruct IH as [t' [Hl Pt']]; [intros y Hy; apply Hbody; now right |].
    exists (t ++ t'). simpl. rewrite (bind_continue _ _ _ _ Hx), Hl. auto.
Qed.

(** A loop ends with the first round that returns. *)
Lemma for_range_return {A} (P : list event -> Prop) (l1 l2 : list A) (x : A)
    (body : A -> Handler unit) (t : list event) :
  P [] -> (forall a b, P a -> P b -> P (a ++ b)) ->
  (forall y, In y l1 -> exists t, body y = (t, Some tt) /\ P t) ->
  body x = (t, None) ->
  exists t1, for_range (l1 ++ x :: l2) body = (t1 ++ t, None) /\ P t1.
Proof.
  intros Pnil Papp. induction l1 as [|y l1 IH]; intros Hbody Hx.
  - exists []. simpl. now rewrite (bind_return _ _ _ Hx).
  - destruct (Hbody y (or_introl eq_refl)) as [ty [Hy Pty]].
    destruct IH as [t1 [Hl Pt1]]; [intros z Hz; apply Hbody; now right | assumption |].
    exists (ty ++ t1). simpl. rewrite (bind_continue _ _ _ _ Hy), Hl. simpl.
    now rewrite app_assoc; auto.
Qed.

Lemma Blocked_after_quiet (t1 t : list event) (code : Z) :
  quiet t1 -> Blocked t code -> Blocked (t1 ++ t) code.
Proof.
  intros [H1 H2] [H3 H4]. split.
  - now rewrite written_app, H1, H3.
  - now rewrite forwarded_app, H2, H4.
Qed.

Lemma Forwarded_after_quiet (t1 : list event) (request : http.Request) :
  quiet t1 -> Forwarded (t1 ++ [EvNext request]) request.
Proof.
  intros [H1 H2]. split.
  - now rewrite written_app, H1.
  - now rewrite forwarded_app, H2.
Qed.

End HandlerLemmas.

(** ** Construction *)
Section ConstructionLemmas.
Context {R : regexp.Lib}.

Lemma Forall2_In_l {A B} (P : A -> B -> Prop) (l : list A) (l' : list B) :
  Forall2 P l l' -> forall x, In x l -> exists y, In y l' /\ P x y.
Proof.
  induction 1 as [|a b l l' Hab _ IH]; intros x Hin; [destruct Hin |].
  destruct Hin as [<- | Hin]; [exists b; split; [now left | assumption] |].
  destruct (IH x Hin) as [y [Hy Hxy]]. exists y. split; [now right | assumption].
Qed.

Lemma Forall2_In_r {A B} (P : A -> B -> Prop) (l : list A) (l' : list B) :
  Forall2 P l l' -> forall y, In y l' -> exists x, In x l /\ P x y.
Proof.
  induction 1 as [|a b l l' Hab _ IH]; intros y Hin; [destruct Hin |].
  destruct Hin as [<- | Hin]; [exists a; split; [now left | assumption] |].
  destruct (IH y Hin) as [x [Hx Hxy]]. exists x. split; [now right | assumption].
Qed.

Lemma compile_loop_ok (regex : list string) (acc res : list regexp.Regexp) :
  compile_loop regex acc = inl res ->
  exists cs, res = acc ++ cs /\ compiled_from regex cs.
Proof.
  revert acc. induction regex as [|r regex IH]; intros acc H; simpl in H.
  - injection H as <-. exists []. split; [now rewrite app_nil_r | constructor].
  - destruct (regexp.Compile r) as [c|e] eqn:Hc; [|discriminate].
    destruct (IH _ H) as [cs [-> Hcs]].
    exists (c :: cs). split; [now rewrite <- app_assoc | now constructor].
Qed.

Lemma compile_loop_fails (regex : list string) (acc : list regexp.Regexp) :
  (exists pattern, In pattern regex /\ fails_to_compile pattern) ->
  exists pattern e,
    In pattern regex /\ compile_loop regex acc = inr (ErrCompilingRegex pattern e).
Proof.
  revert acc. induction regex as [|r regex IH]; intros acc [p [Hin Hp]];
    [destruct Hin |].
  simpl. destruct (regexp.Compile r) as [c|e] eqn:Hc.
  - destruct Hin as [-> | Hin].
    + destruct Hp as [e He]. congruence.
    + destruct (IH (acc ++ [c])) as [q [e [Hq He]]]; [now exists p |].
      exists q, e. split; [now right | assumption].
  - exists r, e. split; [now left | reflexivity].
Qed.

Lemma compiled_from_hit (patterns : list string) (regexps : list regexp.Regexp)
    (url : string) :
  compiled_from patterns regexps ->
  (some_regex_matches patterns url <->
   exists re, In re regexps /\ regexp.MatchString re url = true).
Proof.
  intros H. induction H as [|p re ps res Hp _ IH].
  - split; [intros [p [[] _]] | intros [re [[] _]]].
  - split.
    + intros [q [[<- | Hin] [re' [Hc Hm]]]].
      * exists re. split; [now left | congruence].
      * destruct (proj1 IH) as [re'' [Hin' Hm']].
        { exists q. split; [assumption | now exists re']. }
        exists re''. split; [now right | assumption].
    + intros [re' [[<- | Hin] Hm]].
      * exists p. split; [now left | now exists re].
      * destruct (proj2 IH) as [q [Hq Hqm]]; [now exists re' |].
        exists q. split; [now right | assumption].
Qed.

Lemma compiled_from_miss (patterns : list string) (regexps : list regexp.Regexp)
    (url : string) :
  compiled_from patterns regexps ->
  no_regex_matches patterns url ->
  forall re, In re regexps -> regexp.MatchString re url = false.
Proof.
  intros Hc Hno re Hin.
  destruct (regexp.MatchString re url) eqn:Hm; [|reflexivity].
  destruct (proj2 (compiled_from_hit _ _ url Hc)) as [p [Hp Hpm]];
    [now exists re |].
  exfalso. exact (Hno p Hp Hpm).
Qed.

(** The reserved table is built without a panic, one network per CIDR
    string. *)
Lemma InitializePrivateIPBlocks_loop_ok (l : list string) (acc blocks : list net.IPNet) :
  iphelpers.InitializePrivateIPBlocks_loop l acc = Some blocks ->
  exists bs, blocks = acc ++ bs
    /\ Forall2 (fun cidr block => net.ParseCIDR cidr = Some block) l bs.
Proof.
  revert acc. induction l as [|c l IH]; intros acc H; simpl in H.
  - injection H as <-. exists []. split; [now rewrite app_nil_r | constructor].
  - destruct (net.ParseCIDR c) as [b|] eqn:Hc; [|discriminate].
    destruct (IH _ H) as [bs [-> Hbs]].
    exists (b :: bs). split; [now rewrite <- app_assoc | now constructor].
Qed.

Lemma InitializePrivateIPBlocks_no_panic :
  exists blocks, iphelpers.InitializePrivateIPBlocks = Some blocks.
Proof. eexists. vm_compute. reflexivity. Qed.

Lemma IsIpInList_iff (ip : net.IP) (l : list net.IPNet) :
  iphelpers.IsIpInList ip l = true <->
  exists block, In block l /\ net.Contains block ip = true.
Proof.
  induction l as [|b l IH]; simpl.
  - split; [discriminate | intros [b [[] _]]].
  - destruct (net.Contains b ip) eqn:Hb.
    + split; [intros _; exists b; auto | reflexivity].
    + rewrite IH. split.
      * intros [b' [Hin Hc]]. exists b'. auto.
      * intros [b' [[<- | Hin] Hc]]; [congruence | now exists b'].
Qed.

Lemma IsPrivateIP_iff (ip : net.IP) (blocks : list net.IPNet) :
  iphelpers.InitializePrivateIPBlocks = Some blocks ->
  (iphelpers.IsPrivateIP ip blocks = true <-> private_address ip).
Proof.
  intros Hinit. unfold iphelpers.InitializePrivateIPBlocks in Hinit.
  destruct (InitializePrivateIPBlocks_loop_ok _ _ _ Hinit) as [bs [-> Hbs]].
  simpl. unfold iphelpers.IsPrivateIP, private_address, in_reserved_table.
  destruct (net.IsLoopback ip); [simpl; split; auto |].
  destruct (net.IsLinkLocalUnicast ip); [simpl; split; auto |].
  destruct (net.IsLinkLocalMulticast ip); [simpl; split; auto |].
  simpl. rewrite IsIpInList_iff. split.
  - intros [b [Hin Hc]]. right. right. right.
    destruct (Forall2_In_r _ _ _ Hbs b Hin) as [c [Hc1 Hc2]].
    now exists c, b.
  - intros [H | [H | [H | [c [b [Hin [Hp Hc]]]]]]]; try discriminate.
    exists b. split; [|assumption].
    destruct (Forall2_In_l _ _ _ Hbs c Hin) as [b' [Hb1 Hb2]]. congruence.
Qed.

Lemma isPrivateIp_loop_forallb (ips : list net.IP) (blocks : list net.IPNet)
    (acc : bool) :
  BlockIP.isPrivateIp_loop ips blocks acc
  = acc && forallb (fun ip => iphelpers.IsPrivateIP ip blocks) ips.
Proof.
  revert acc. induction ips as [|ip ips IH]; intros acc; simpl.
  - now rewrite andb_true_r.
  - destruct (iphelpers.IsPrivateIP ip blocks), acc; simpl; try reflexivity.
    + now rewrite IH.
Qed.

End ConstructionLemmas.

(** ** The rule loops of [ServeHTTP] *)
Section LoopLemmas.
Context {R : regexp.Lib}.

(** The substring loop: no configured string occurs in the URL. *)
Lemma substring_loop_miss (strs : list string) (url msg : string) (code : Z) :
  (forall str, In str strs -> strings.Contains url str = false) ->
  exists t,
    for_range strs (fun str =>
      when (strings.Contains url str)
        (log_Printf msg ;; WriteHeader code ;; return_))%handler
    = (t, Some tt) /\ silent t.
Proof.
  intros H. apply for_range_continue; [apply silent_nil | apply silent_app |].
  intros str Hin. rewrite (H str Hin). exists []. split; [reflexivity | apply silent_nil].
Qed.

(** The substring loop: some configured string occurs in the URL. *)
Lemma substring_loop_hit (strs : list string) (url msg : string) (code : Z) :
  (exists str, In str strs /\ strings.Contains url str = true) ->
  exists t,
    for_range strs (fun str =>
      when (strings.Contains url str)
        (log_Printf msg ;; WriteHeader code ;; return_))%handler
    = (t, None) /\ Blocked t code /\ evaluated t = [].
Proof.
  intros H. destruct (first_hit _ _ H) as [l1 [x [l2 [-> [Hx Hl1]]]]].
  destruct (for_range_return silent l1 l2 x
              (fun str => when (strings.Contains url str)
                 (log_Printf msg ;; WriteHeader code ;; return_))%handler
              [EvLog msg; EvWriteHeader code])
    as [t1 [Ht1 [Hq He]]].
  - apply silent_nil.
  - apply silent_app.
  - intros y Hy. rewrite (Hl1 y Hy). exists []. split; [reflexivity | apply silent_nil].
  - now rewrite Hx.
  - exists (t1 ++ [EvLog msg; EvWriteHeader code]). split; [assumption |]. split.
    + apply Blocked_after_quiet; [assumption | now split].
    + now rewrite evaluated_app, He.
Qed.

(** The regex loop of the revisions without exemption: no compiled
    pattern matches. *)
Lemma regex_loop_miss (regexps : list regexp.Regexp) (url msg : string) (code : Z) :
  (forall re, In re regexps -> regexp.MatchString re url = false) ->
  exists t,
    for_range regexps (fun regex =>
      matched <- MatchString regex url ;;
      when matched (log_Printf msg ;; WriteHeader code ;; return_))%handler
    = (t, Some tt) /\ quiet t.
Proof.
  intros H. apply for_range_continue; [apply quiet_nil | apply quiet_app |].
  intros re Hin. exists [EvMatchString re url].
  unfold MatchString, bind. rewrite (H re Hin). split; [reflexivity | now split].
Qed.

(** The regex loop of the revisions without exemption: some compiled
    pattern matches. *)
Lemma regex_loop_hit (regexps : list regexp.Regexp) (url msg : string) (code : Z) :
  (exists re, In re regexps /\ regexp.MatchString re url = true) ->
  exists t,
    for_range regexps (fun regex =>
      matched <- MatchString regex url ;;
      when matched (log_Printf msg ;; WriteHeader code ;; return_))%handler
    = (t, None) /\ Blocked t code.
Proof.
  intros H.
  destruct (first_hit (fun re => regexp.MatchString re url) _ H)
    as [l1 [x [l2 [-> [Hx Hl1]]]]].
  destruct (for_range_return quiet l1 l2 x
              (fun regex =>
                 matched <- MatchString regex url ;;
                 when matched (log_Printf msg ;; WriteHeader code ;; return_))%handler
              [EvMatchString x url; EvLog msg; EvWriteHeader code])
    as [t1 [Ht1 Hq]].
  - apply quiet_nil.
  - apply quiet_app.
  - intros y Hy. exists [EvMatchString y url].
    unfold MatchString, bind. rewrite (Hl1 y Hy). split; [reflexivity | now split].
  - unfold MatchString, bind. now rewrite Hx.
  - eexists. split; [exact Ht1 |].
    apply Blocked_after_quiet; [assumption | now split].
Qed.

(** One round of the regex loop of [traefik_block_regex_urls.go], by
    cases: the pattern does not match; it matches and the request is
    exempt; it matches and the request is not exempt. *)
Lemma round_miss (b : BlockIP.traefik_block_regex_urls) request url re :
  regexp.MatchString re url = false ->
  BlockIP.ServeHTTP_round b request url re = ([EvMatchString re url], Some tt).
Proof.
  intros H. unfold BlockIP.ServeHTTP_round, MatchString, bind. now rewrite H.
Qed.

Lemma round_exempt (b : BlockIP.traefik_block_regex_urls) request url re :
  exempt b request = true ->
  exists t, BlockIP.ServeHTTP_round b request url re = (t, Some tt) /\ quiet t.
Proof.
  unfold exempt. intros H. apply andb_true_iff in H as [Ha Hp].
  destruct (regexp.MatchString re url) eqn:Hm;
    [| exists [EvMatchString re url]; split; [now apply round_miss | now split]].
  unfold BlockIP.ServeHTTP_round, MatchString, bind. rewrite Hm. simpl.
  destruct (iphelpers.CollectRemoteIP request) as [ips err]. simpl in Hp.
  rewrite isPrivateIp_loop_forallb, Hp, Ha. simpl.
  destruct err as [e|]; simpl; eexists; (split; [reflexivity | now split]).
Qed.

Lemma round_block (b : BlockIP.traefik_block_regex_urls) request url re :
  regexp.MatchString re url = true ->
  exempt b request = false ->
  exists t, BlockIP.ServeHTTP_round b request url re = (t, None)
            /\ Blocked t (BlockIP.statusCode b).
Proof.
  unfold exempt. intros Hm H.
  unfold BlockIP.ServeHTTP_round, MatchString, bind. rewrite Hm. simpl.
  destruct (iphelpers.CollectRemoteIP request) as [ips err]. simpl in H.
  rewrite isPrivateIp_loop_forallb.
  destruct (BlockIP.allowLocalRequests b); simpl in *.
  - rewrite H. destruct err as [e|]; simpl; eexists; (split; [reflexivity | now split]).
  - destruct err as [e|]; simpl; eexists; (split; [reflexivity | now split]).
Qed.

(** The whole call, by the same cases. *)
Lemma ServeHTTP_exempt (b : BlockIP.traefik_block_regex_urls) request :
  exempt b request = true ->
  Forwarded (calls (BlockIP.ServeHTTP b request)) request.
Proof.
  intros H. unfold BlockIP.ServeHTTP.
  destruct (for_range_continue quiet (BlockIP.regexps b)
              (BlockIP.ServeHTTP_round b request
                 (http.Host request +:+ http.RequestURI request)))
    as [t [Ht Hq]];
    [apply quiet_nil | apply quiet_app | intros; now apply round_exempt |].
  unfold bind, log_Printf, call, next_ServeHTTP. rewrite Ht.
  change (Forwarded ((EvLog "fullURL: (%s)" :: t) ++ [EvNext request]) request).
  apply Forwarded_after_quiet. destruct Hq as [Hw Hf]. now split.
Qed.

Lemma ServeHTTP_miss (b : BlockIP.traefik_block_regex_urls) request :
  (forall re, In re (BlockIP.regexps b) ->
              regexp.MatchString re (composed_url request) = false) ->
  Forwarded (calls (BlockIP.ServeHTTP b request)) request.
Proof.
  intros H. unfold BlockIP.ServeHTTP.
  destruct (for_range_continue quiet (BlockIP.regexps b)
              (BlockIP.ServeHTTP_round b request
                 (http.Host request +:+ http.RequestURI request)))
    as [t [Ht Hq]]; [apply quiet_nil | apply quiet_app | |].
  { intros re Hin. eexists. split; [apply round_miss, H, Hin | now split]. }
  unfold bind, log_Printf, call, next_ServeHTTP. rewrite Ht.
  change (Forwarded ((EvLog "fullURL: (%s)" :: t) ++ [EvNext request]) request).
  apply Forwarded_after_quiet. destruct Hq as [Hw Hf]. now split.
Qed.

Lemma ServeHTTP_block (b : BlockIP.traefik_block_regex_urls) request :
  (exists re, In re (BlockIP.regexps b)
              /\ regexp.MatchString re (composed_url request) = true) ->
  exempt b request = false ->
  Blocked (calls (BlockIP.ServeHTTP b request)) (BlockIP.statusCode b).
Proof.
  intros H He. unfold BlockIP.ServeHTTP.
  destruct (first_hit (fun re => regexp.MatchString re (composed_url request)) _ H)
    as [l1 [x [l2 [Hl [Hx Hl1]]]]].
  destruct (round_block b request (composed_url request) x Hx He) as [t [Ht Hb]].
  destruct (for_range_return quiet l1 l2 x
              (BlockIP.ServeHTTP_round b request (composed_url request)) t)
    as [t1 [Ht1 Hq]]; [apply quiet_nil | apply quiet_app | | assumption |].
  { intros re Hin. eexists. split; [apply round_miss, Hl1, Hin | now split]. }
  rewrite Hl. fold (composed_url request).
  unfold bind, log_Printf, call. rewrite Ht1. simpl.
  apply (Blocked_after_quiet (EvLog "fullURL: (%s)" :: t1)); [|assumption].
  destruct Hq as [Hw Hf]. now split.
Qed.

End LoopLemmas.

(** ** The address parser accepts hex digits, dots and colons only *)
Section ParserLemmas.

Lemma address_bytes_cons (c : ascii) (s : string) :
  address_bytes (String c s) = address_byte c && address_bytes s.
Proof. reflexivity. Qed.

Lemma address_bytes_app (a b : string) :
  address_bytes (a +:+ b) = address_bytes a && address_bytes b.
Proof.
  induction a as [|c a IH]; [reflexivity |].
  now rewrite append_cons, !address_bytes_cons, IH, andb_assoc.
Qed.

Lemma isDigit_address_byte (c : ascii) :
  net.isDigit c = true -> address_byte c = true.
Proof.
  unfold net.isDigit, address_byte, net.hexval. now intros ->.
Qed.

Lemma isDot_address_byte (c : ascii) :
  net.isDot c = true -> address_byte c = true.
Proof.
  unfold address_byte. intros ->. now destruct (net.hexval c).
Qed.

Lemma isColon_address_byte (c : ascii) :
  net.isColon c = true -> address_byte c = true.
Proof.
  unfold address_byte. intros ->. rewrite orb_true_r. now destruct (net.hexval c).
Qed.

Lemma hexval_address_byte (c : ascii) (d : Z) :
  net.hexval c = Some d -> address_byte c = true.
Proof. unfold address_byte. now intros ->. Qed.

Lemma parseIPv4Fields_from_bytes (s : string) first prevDot val digLen fields f :
  net.parseIPv4Fields_from s first prevDot val digLen fields = Some f ->
  address_bytes s = true.
Proof.
  revert first prevDot val digLen fields.
  induction s as [|c s IH]; intros first prevDot val digLen fields H;
    [reflexivity |].
  rewrite address_bytes_cons. simpl in H.
  destruct (net.isDigit c) eqn:Hd.
  - rewrite (isDigit_address_byte _ Hd). simpl.
    destruct ((digLen =? 1)%nat && (val =? 0)); [discriminate |].
    destruct (255 <? val * 10 + (byte_of c - 48)); [discriminate |].
    exact (IH _ _ _ _ _ H).
  - destruct (net.isDot c) eqn:Hdot; [|discriminate].
    rewrite (isDot_address_byte _ Hdot). simpl.
    destruct (first || net.isEmpty s || prevDot); [discriminate |].
    destruct (length fields =? 3)%nat; [discriminate |].
    exact (IH _ _ _ _ _ H).
Qed.

Lemma parseIPv6_hex_split (s : string) off acc off' acc' rest :
  net.parseIPv6_hex s off acc = Some (off', acc', rest) ->
  exists pre, s = pre +:+ rest /\ address_bytes pre = true.
Proof.
  revert off acc. induction s as [|c s IH]; intros off acc H; simpl in H.
  - injection H as _ _ <-. now exists EmptyString.
  - destruct (net.hexval c) as [d|] eqn:Hc.
    + destruct (3 <? off)%nat; [discriminate |].
      destruct (65535 <? (Z.shiftl acc 4 + d) mod 2 ^ 32); [discriminate |].
      destruct (IH _ _ H) as [pre [-> Hpre]].
      exists (String c pre). split; [reflexivity |].
      now rewrite address_bytes_cons, (hexval_address_byte _ _ Hc), Hpre.
    + injection H as _ _ <-. now exists EmptyString.
Qed.

Lemma parseIPv6_groups_split (rounds : nat) (s : string) ip ellipsis s' ip' ellipsis' :
  net.parseIPv6_groups rounds s ip ellipsis = Some (s', ip', ellipsis') ->
  exists pre, s = pre +:+ s' /\ address_bytes pre = true.
Proof.
  revert s ip ellipsis.
  induction rounds as [|rounds IH]; intros s ip ellipsis H;
    cbn [net.parseIPv6_groups] in H.
  - destruct (16 <=? length ip)%nat; [|discriminate].
    injection H as <- _ _. now exists EmptyString.
  - destruct (16 <=? length ip)%nat.
    { injection H as <- _ _. now exists EmptyString. }
    destruct (net.parseIPv6_hex s 0 0) as [[[off acc] rest]|] eqn:Hhex; [|discriminate].
    destruct (off =? 0)%nat; [discriminate |].
    destruct (parseIPv6_hex_split _ _ _ _ _ _ Hhex) as [pre [Hs Hpre]].
    destruct (net.startsWith net.isDot rest).
    { destruct (net.isNone ellipsis && negb (length ip =? 12)%nat); [discriminate |].
      destruct (16 <? length ip + 4)%nat; [discriminate |].
      destruct (net.parseIPv4Fields s) as [f|] eqn:Hf; [|discriminate].
      injection H as <- _ _. exists s. split; [now rewrite append_nil_r |].
      exact (parseIPv4Fields_from_bytes _ _ _ _ _ _ _ Hf). }
    destruct rest as [|c rest1].
    { injection H as <- _ _. exists pre. now split. }
    destruct (net.isColon c) eqn:Hc; [|discriminate]. cbn [negb] in H.
    destruct rest1 as [|c1 rest2]; [discriminate |].
    destruct (net.isColon c1) eqn:Hc1.
    + destruct ellipsis; [discriminate |].
      destruct (net.isEmpty rest2) eqn:He.
      * injection H as <- _ _. destruct rest2; [|discriminate].
        exists s. split; [now rewrite append_nil_r |].
        rewrite Hs, address_bytes_app, Hpre, !address_bytes_cons,
          (isColon_address_byte _ Hc), (isColon_address_byte _ Hc1). reflexivity.
      * destruct (IH _ _ _ H) as [pre2 [-> Hpre2]].
        exists (pre +:+ String c (String c1 pre2)). split.
        -- now rewrite Hs, append_assoc, !append_cons.
        -- now rewrite address_bytes_app, Hpre, !address_bytes_cons,
             (isColon_address_byte _ Hc), (isColon_address_byte _ Hc1), Hpre2.
    + destruct (IH _ _ _ H) as [pre2 [Hr Hpre2]].
      exists (pre +:+ String c pre2). split.
      * now rewrite Hs, Hr, append_assoc, !append_cons.
      * now rewrite address_bytes_app, Hpre, !address_bytes_cons,
          (isColon_address_byte _ Hc), Hpre2.
Qed.

Lemma parseIPv6_run_bytes (s : string) ellipsis b :
  match net.parseIPv6_groups 8 s [] ellipsis with
  | None => None
  | Some r => net.parseIPv6_finish r
  end = Some b ->
  address_bytes s = true.
Proof.
  destruct (net.parseIPv6_groups 8 s [] ellipsis) as [[[s' ip'] e']|] eqn:Hg;
    [|discriminate].
  unfold net.parseIPv6_finish. destruct s' as [|c s']; [|discriminate].
  intros _. destruct (parseIPv6_groups_split _ _ _ _ _ _ _ Hg) as [pre [-> Hpre]].
  now rewrite append_nil_r.
Qed.

Lemma CutByte_not_found (s : string) (sep : ascii) before after :
  strings.CutByte s sep = (before, after, false) -> before = s.
Proof.
  revert before after. induction s as [|c s IH]; intros before after H; simpl in H.
  - now injection H as <- _.
  - destruct (Ascii.eqb c sep); [discriminate |].
    destruct (strings.CutByte s sep) as [[b a] [|]]; [discriminate |].
    now injection H as <- _.
Qed.

Lemma parseIPv6_run_some (s : string) ellipsis zone b zone' :
  match net.parseIPv6_groups 8 s [] ellipsis with
  | None => None
  | Some r =>
      match net.parseIPv6_finish r with
      | Some b => Some (net.Addr6 b zone)
      | None => None
      end
  end = Some (net.Addr6 b zone') ->
  zone = zone' /\
  match net.parseIPv6_groups 8 s [] ellipsis with
  | None => None
  | Some r => net.parseIPv6_finish r
  end = Some b.
Proof.
  destruct (net.parseIPv6_groups 8 s [] ellipsis) as [r|]; [|discriminate].
  destruct (net.parseIPv6_finish r); [|discriminate].
  intros H. injection H as -> ->. now split.
Qed.

Lemma parseIPv6_bytes (s : string) b :
  net.parseIPv6 s = Some (net.Addr6 b EmptyString) -> address_bytes s = true.
Proof.
  unfold net.parseIPv6.
  destruct (strings.CutByte s "%"%char) as [[s1 zone] found] eqn:Hcut.
  destruct found.
  - destruct zone as [|z zone]; [discriminate |]. cbn [andb net.isEmpty].
    intros H. exfalso.
    destruct s1 as [|c0 [|c1 s2]];
      try (apply parseIPv6_run_some in H as [H _]; discriminate).
    destruct (net.isColon c0 && net.isColon c1);
      [destruct (net.isEmpty s2); [discriminate |] |];
      apply parseIPv6_run_some in H as [H _]; discriminate.
  - apply CutByte_not_found in Hcut. subst s1. cbn [andb].
    destruct s as [|c0 [|c1 s2]].
    { intros H. apply parseIPv6_run_some in H as [_ H].
      exact (parseIPv6_run_bytes EmptyString None b H). }
    { intros H. apply parseIPv6_run_some in H as [_ H].
      exact (parseIPv6_run_bytes (String c0 EmptyString) None b H). }
    destruct (net.isColon c0 && net.isColon c1) eqn:Hcc.
    + apply andb_true_iff in Hcc as [H0 H1].
      rewrite !address_bytes_cons, (isColon_address_byte _ H0), (isColon_address_byte _ H1).
      cbn [negb andb]. destruct (net.isEmpty s2) eqn:He.
      { destruct s2; [reflexivity | discriminate]. }
      intros H. apply parseIPv6_run_some in H as [_ H].
      exact (parseIPv6_run_bytes s2 (Some 0%nat) b H).
    + intros H. apply parseIPv6_run_some in H as [_ H].
      exact (parseIPv6_run_bytes (String c0 (String c1 s2)) None b H).
Qed.

Lemma parseIPv4_bytes (s : string) a :
  net.parseIPv4 s = Some a -> address_bytes s = true.
Proof.
  unfold net.parseIPv4, net.parseIPv4Fields.
  destruct (net.parseIPv4Fields_from s true false 0 0 []) as [f|] eqn:Hf;
    [|discriminate].
  intros _. exact (parseIPv4Fields_from_bytes _ _ _ _ _ _ _ Hf).
Qed.

Lemma ParseAddr_from_cases (s_in s : string) a :
  net.ParseAddr_from s_in s = Some a ->
  s <> EmptyString /\ (net.parseIPv4 s_in = Some a \/ net.parseIPv6 s_in = Some a).
Proof.
  induction s as [|c s IH]; [discriminate |]. simpl. intros H.
  split; [discriminate |].
  destruct (net.isDot c); [now left |].
  destruct (net.isColon c); [now right |].
  destruct (net.isPercent c); [discriminate |].
  exact (proj2 (IH H)).
Qed.

(** A string that parses as an address is not empty and is made of
    address bytes. *)
Lemma ParseIP_token (s : string) (ip : net.IP) :
  net.ParseIP s = Some ip -> s <> EmptyString /\ address_bytes s = true.
Proof.
  unfold net.ParseIP, net.ParseAddr.
  destruct (net.ParseAddr_from s s) as [a|] eqn:Ha; [|discriminate].
  destruct (ParseAddr_from_cases _ _ _ Ha) as [Hne [H4 | H6]].
  - intros _. split; [assumption | exact (parseIPv4_bytes _ _ H4)].
  - destruct a as [b | b zone].
    + intros _. split; [assumption |]. unfold net.parseIPv6 in H6.
      destruct (strings.CutByte s "%"%char) as [[s1 z] found].
      destruct (found && net.isEmpty z); [discriminate |].
      destruct s1 as [|c0 [|c1 s2]];
        try (destruct (net.parseIPv6_groups _ _ _ _) as [r|];
             [destruct (net.parseIPv6_finish r)|]; discriminate).
      destruct (net.isColon c0 && net.isColon c1);
        [destruct (net.isEmpty s2); [discriminate |] |];
        (destruct (net.parseIPv6_groups _ _ _ _) as [r|];
         [destruct (net.parseIPv6_finish r)|]; discriminate).
    + simpl. destruct zone; [|discriminate]. intros _.
      split; [assumption | exact (parseIPv6_bytes _ _ H6)].
Qed.

End ParserLemmas.

(** ** Splitting a header value at commas *)
Section SplitLemmas.

Lemma no_comma_cons (c : ascii) (s : string) :
  no_comma (String c s) = negb (iphelpers.splitFn c) && no_comma s.
Proof. reflexivity. Qed.

Lemma address_byte_not_comma (c : ascii) :
  address_byte c = true -> iphelpers.splitFn c = false.
Proof.
  intros H. unfold iphelpers.splitFn.
  destruct (Ascii.eqb_spec c ","%char) as [-> | _]; [discriminate H | reflexivity].
Qed.

Lemma address_bytes_no_comma (s : string) :
  address_bytes s = true -> no_comma s = true.
Proof.
  induction s as [|c s IH]; [reflexivity |].
  rewrite address_bytes_cons, no_comma_cons. intros H.
  apply andb_true_iff in H as [Hc Hs].
  now rewrite (address_byte_not_comma _ Hc), (IH Hs).
Qed.

Lemma FieldsFunc_from_open (t rest w : string) :
  no_comma t = true ->
  strings.FieldsFunc_from iphelpers.splitFn (t +:+ rest) (Some w)
  = strings.FieldsFunc_from iphelpers.splitFn rest (Some (w +:+ t)).
Proof.
  revert w. induction t as [|c t IH]; intros w H.
  - now rewrite append_nil_l, append_nil_r.
  - rewrite no_comma_cons in H. apply andb_true_iff in H as [Hc Ht].
    apply negb_true_iff in Hc. rewrite append_cons. simpl. rewrite Hc.
    rewrite (IH _ Ht), append_assoc. reflexivity.
Qed.

Lemma FieldsFunc_from_start (t rest : string) :
  t <> EmptyString -> no_comma t = true ->
  strings.FieldsFunc_from iphelpers.splitFn (t +:+ rest) None
  = strings.FieldsFunc_from iphelpers.splitFn rest (Some t).
Proof.
  destruct t as [|c t]; [congruence |]. intros _ H.
  rewrite no_comma_cons in H. apply andb_true_iff in H as [Hc Ht].
  apply negb_true_iff in Hc. rewrite append_cons. simpl. rewrite Hc.
  now rewrite (FieldsFunc_from_open _ _ _ Ht).
Qed.

Lemma FieldsFunc_from_comma (rest w : string) :
  strings.FieldsFunc_from iphelpers.splitFn (String ","%char rest) (Some w)
  = w :: strings.FieldsFunc_from iphelpers.splitFn rest None.
Proof. reflexivity. Qed.

(** Splitting what was joined gives the tokens back. *)
Lemma FieldsFunc_Join (tokens : list string) :
  Forall (fun t => t <> EmptyString /\ no_comma t = true) tokens ->
  strings.FieldsFunc (comma_separated tokens) iphelpers.splitFn = tokens.
Proof.
  unfold strings.FieldsFunc, comma_separated, strings.Join.
  induction 1 as [|t ts [Hne Hnc] Hts IH]; [reflexivity |].
  destruct ts as [|t2 ts].
  - simpl. rewrite <- (append_nil_r t) at 1.
    now rewrite (FieldsFunc_from_start _ _ Hne Hnc).
  - change (String.concat "," (t :: t2 :: ts))
      with (t +:+ String ","%char (String.concat "," (t2 :: ts))).
    rewrite (FieldsFunc_from_start _ _ Hne Hnc), FieldsFunc_from_comma.
    now rewrite IH.
Qed.

Lemma parse_to_tokens (tokens : list string) (ips : list net.IP) :
  parse_to tokens ips ->
  Forall (fun t => t <> EmptyString /\ no_comma t = true) tokens.
Proof.
  induction 1 as [|t ip ts ips' Ht _ IH]; constructor; [|assumption].
  destruct (ParseIP_token _ _ Ht) as [Hne Hb].
  split; [assumption | now apply address_bytes_no_comma].
Qed.

End SplitLemmas.

(** ** [CollectRemoteIP] *)
Section CollectLemmas.

Lemma CollectRemoteIP_loop_ok (values : list string) (ips acc : list net.IP) :
  parse_to values ips ->
  iphelpers.CollectRemoteIP_loop values acc = (acc ++ ips, None).
Proof.
  intros H. revert acc. induction H as [|v ip vs ips' Hv _ IH]; intros acc; simpl.
  - now rewrite app_nil_r.
  - unfold iphelpers.ParseIP. rewrite Hv, IH, <- app_assoc. reflexivity.
Qed.

Lemma CollectRemoteIP_loop_fail (pre post : list string) (bad : string)
    (ips acc : list net.IP) :
  parse_to pre ips -> net.ParseIP bad = None ->
  iphelpers.CollectRemoteIP_loop (pre ++ bad :: post) acc
  = (acc ++ ips,
     Some (iphelpers.ErrParsingFailed (iphelpers.ErrUnableToParse bad))).
Proof.
  intros H Hbad. revert acc. induction H as [|v ip vs ips' Hv _ IH]; intros acc; simpl.
  - unfold iphelpers.ParseIP. now rewrite Hbad, app_nil_r.
  - unfold iphelpers.ParseIP at 1. rewrite Hv, IH, <- app_assoc. reflexivity.
Qed.

Lemma CollectRemoteIP_loop_app (a b : list string) (acc : list net.IP) :
  iphelpers.CollectRemoteIP_loop (a ++ b) acc
  = match iphelpers.CollectRemoteIP_loop a acc with
    | (ipList, Some err) => (ipList, Some err)
    | (ipList, None) => iphelpers.CollectRemoteIP_loop b ipList
    end.
Proof.
  revert acc. induction a as [|v a IH]; intros acc; simpl; [reflexivity |].
  destruct (iphelpers.ParseIP v); [apply IH | reflexivity].
Qed.

(** [CollectRemoteIP] is one pass over the tokens of [X-Forwarded-For]
    followed by those of [X-Real-IP]. *)
Lemma CollectRemoteIP_tokens (request : http.Request) :
  iphelpers.CollectRemoteIP request
  = iphelpers.CollectRemoteIP_loop
      (forwarded_for_tokens request ++ real_ip_tokens request) [].
Proof.
  rewrite CollectRemoteIP_loop_app. reflexivity.
Qed.

(** Every list of values either parses as a whole or has a first value
    that does not parse. *)
Lemma parse_to_or_first_failure (values : list string) :
  (exists ips, parse_to values ips)
  \/ (exists pre bad post ips,
        values = pre ++ bad :: post /\ parse_to pre ips /\ net.ParseIP bad = None).
Proof.
  induction values as [|v vs IH].
  - left. exists []. constructor.
  - destruct (net.ParseIP v) as [ip|] eqn:Hv.
    + destruct IH as [[ips H] | [pre [bad [post [ips [-> [H Hbad]]]]]]].
      * left. exists (ip :: ips). now constructor.
      * right. exists (v :: pre), bad, post, (ip :: ips).
        repeat split; [now constructor | assumption].
    + right. exists [], v, vs, []. repeat split; [constructor | assumption].
Qed.

End CollectLemmas.

(** ** What [New] puts into the handler *)
Section NewLemmas.
Context {R : regexp.Lib}.

Lemma BlockIP_New_ok (config : BlockIP.Config) name (b : BlockIP.traefik_block_regex_urls) :
  BlockIP.New config name = Ok b ->
  BlockIP.Regex config <> []
  /\ compiled_from (BlockIP.Regex config) (BlockIP.regexps b)
  /\ BlockIP.allowLocalRequests b = BlockIP.AllowLocalRequests config
  /\ BlockIP.statusCode b = BlockIP.StatusCode config
  /\ iphelpers.InitializePrivateIPBlocks = Some (BlockIP.privateIPRanges b).
Proof.
  unfold BlockIP.New.
  destruct (BlockIP.Regex config) as [|r rs] eqn:Hr; [discriminate |].
  cbn [length Nat.eqb].
  destruct (compile_loop (r :: rs) []) as [res|err] eqn:Hc; [|discriminate].
  destruct iphelpers.InitializePrivateIPBlocks as [blocks|]; [|discriminate].
  intros H. injection H as <-. cbn.
  destruct (compile_loop_ok _ _ _ Hc) as [cs [-> Hcs]].
  repeat split; [discriminate | exact Hcs].
Qed.

Lemma BlockStringsIP_New_ok (config : BlockStringsIP.Config) name
    (b : BlockStringsIP.traefik_block_regex_urls) :
  BlockStringsIP.New config name = Ok b ->
  compiled_from (BlockStringsIP.Regex config) (BlockStringsIP.regexps b)
  /\ BlockStringsIP.matchStrings b = BlockStringsIP.MatchStrings config
  /\ BlockStringsIP.statusCode b = BlockStringsIP.StatusCode config.
Proof.
  unfold BlockStringsIP.New.
  destruct (compile_loop (BlockStringsIP.Regex config) []) as [res|err] eqn:Hc;
    [|discriminate].
  destruct iphelpers.InitializePrivateIPBlocks as [blocks|]; [|discriminate].
  intros H. injection H as <-. cbn.
  destruct (compile_loop_ok _ _ _ Hc) as [cs [-> Hcs]].
  repeat split. exact Hcs.
Qed.

Lemma BlockStrings_New_ok (config : BlockStrings.Config) name
    (b : BlockStrings.traefik_block_regex_urls) :
  BlockStrings.New config name = Ok b ->
  compiled_from (BlockStrings.Regex config) (BlockStrings.regexps b)
  /\ BlockStrings.matchStrings b = BlockStrings.MatchStrings config
  /\ BlockStrings.statusCode b = BlockStrings.StatusCode config.
Proof.
  unfold BlockStrings.New.
  destruct (compile_loop (BlockStrings.Regex config) []) as [res|err] eqn:Hc;
    [|discriminate].
  intros H. injection H as <-. cbn.
  destruct (compile_loop_ok _ _ _ Hc) as [cs [-> Hcs]].
  repeat split. exact Hcs.
Qed.

Lemma BlockExact_New_ok (config : BlockExact.Config) name
    (b : BlockExact.traefik_block_regex_urls) :
  BlockExact.New config name = Ok b ->
  compiled_from (BlockExact.Regex config) (BlockExact.regexps b)
  /\ BlockExact.exactMatch b = BlockExact.ExactMatch config
  /\ BlockExact.statusCode b = BlockExact.StatusCode config.
Proof.
  unfold BlockExact.New.
  destruct (compile_loop (BlockExact.Regex config) []) as [res|err] eqn:Hc;
    [|discriminate].
  intros H. injection H as <-. cbn.
  destruct (compile_loop_ok _ _ _ Hc) as [cs [-> Hcs]].
  repeat split. exact Hcs.
Qed.

(** [New] does not panic: the hardcoded CIDR strings parse. *)
Lemma BlockIP_New_no_panic (config : BlockIP.Config) name :
  BlockIP.New config name <> Panic.
Proof.
  unfold BlockIP.New.
  destruct InitializePrivateIPBlocks_no_panic as [blocks ->].
  destruct (length (BlockIP.Regex config) =? 0)%nat; [discriminate |].
  destruct (compile_loop (BlockIP.Regex config) []); discriminate.
Qed.

Lemma BlockStringsIP_New_no_panic (config : BlockStringsIP.Config) name :
  BlockStringsIP.New config name <> Panic.
Proof.
  unfold BlockStringsIP.New.
  destruct InitializePrivateIPBlocks_no_panic as [blocks ->].
  destruct (compile_loop (BlockStringsIP.Regex config) []); discriminate.
Qed.

(** The exemption test in the words of the properties. *)
Lemma all_private_iff (blocks : list net.IPNet) (ips : list net.IP) :
  iphelpers.InitializePrivateIPBlocks = Some blocks ->
  (forallb (fun ip => iphelpers.IsPrivateIP ip blocks) ips = true
   <-> Forall private_address ips).
Proof.
  intros Hinit. rewrite List.forallb_forall, List.Forall_forall.
  split; intros H ip Hin; apply (IsPrivateIP_iff ip blocks Hinit), H, Hin.
Qed.

Lemma some_public_iff (blocks : list net.IPNet) (ips : list net.IP) :
  iphelpers.InitializePrivateIPBlocks = Some blocks ->
  (forallb (fun ip => iphelpers.IsPrivateIP ip blocks) ips = false
   <-> Exists (fun ip => ~ private_address ip) ips).
Proof.
  intros Hinit. induction ips as [|ip ips IH]; simpl.
  - split; [discriminate | intros H; inversion H].
  - destruct (iphelpers.IsPrivateIP ip blocks) eqn:Hp; simpl.
    + rewrite IH. split; [now right |].
      intros H. inversion H as [? ? Hn | ? ? Hn]; subst; [|assumption].
      exfalso. apply Hn. now apply (IsPrivateIP_iff ip blocks Hinit).
    + split; [|reflexivity]. intros _. left. intros Hn.
      apply (IsPrivateIP_iff ip blocks Hinit) in Hn. congruence.
Qed.

End NewLemmas.

(** ** The revisions with string rules, by cases *)
Section StringRuleLemmas.
Context {R : regexp.Lib}.

Lemma BlockStringsIP_forward (b : BlockStringsIP.traefik_block_regex_urls) request :
  (forall str, In str (BlockStringsIP.matchStrings b) ->
               strings.Contains (composed_url request) str = false) ->
  (forall re, In re (BlockStringsIP.regexps b) ->
              regexp.MatchString re (composed_url request) = false) ->
  Forwarded (calls (BlockStringsIP.ServeHTTP b request)) request.
Proof.
  intros Hs Hr. unfold BlockStringsIP.ServeHTTP. fold (composed_url request).
  destruct (substring_loop_miss _ _
              "URL is blocked (substring match): (%s): module=%s"
              (BlockStringsIP.statusCode b) Hs) as [t1 [-> [Hq1 _]]].
  destruct (regex_loop_miss _ _ "URL is blocked (regex match): (%s) module=%s"
              (BlockStringsIP.statusCode b) Hr) as [t2 [Ht2 Hq2]].
  unfold bind at 1. unfold bind at 1. rewrite Ht2.
  cbn [next_ServeHTTP call calls fst]. rewrite app_assoc.
  apply Forwarded_after_quiet. now apply quiet_app.
Qed.

Lemma BlockStringsIP_string_hit (b : BlockStringsIP.traefik_block_regex_urls) request :
  (exists str, In str (BlockStringsIP.matchStrings b)
               /\ strings.Contains (composed_url request) str = true) ->
  Blocked (calls (BlockStringsIP.ServeHTTP b request)) (BlockStringsIP.statusCode b)
  /\ evaluated (calls (BlockStringsIP.ServeHTTP b request)) = [].
Proof.
  intros Hs. unfold BlockStringsIP.ServeHTTP. fold (composed_url request).
  destruct (substring_loop_hit _ _
              "URL is blocked (substring match): (%s): module=%s"
              (BlockStringsIP.statusCode b) Hs) as [t1 [-> [Hb He]]].
  now split.
Qed.

Lemma BlockStrings_forward (b : BlockStrings.traefik_block_regex_urls) request :
  (forall str, In str (BlockStrings.matchStrings b) ->
               strings.Contains (composed_url request) str = false) ->
  (forall re, In re (BlockStrings.regexps b) ->
              regexp.MatchString re (composed_url request) = false) ->
  Forwarded (calls (BlockStrings.ServeHTTP b request)) request.
Proof.
  intros Hs Hr. unfold BlockStrings.ServeHTTP. fold (composed_url request).
  destruct (substring_loop_miss _ _
              "URL is blocked (substring match): (%s): module=%s"
              (BlockStrings.statusCode b) Hs) as [t1 [-> [Hq1 _]]].
  destruct (regex_loop_miss _ _ "URL is blocked (regex match): (%s) module=%s"
              (BlockStrings.statusCode b) Hr) as [t2 [Ht2 Hq2]].
  unfold bind at 1. unfold bind at 1. rewrite Ht2.
  cbn [next_ServeHTTP call calls fst]. rewrite app_assoc.
  apply Forwarded_after_quiet. now apply quiet_app.
Qed.

Lemma BlockStrings_string_hit (b : BlockStrings.traefik_block_regex_urls) request :
  (exists str, In str (BlockStrings.matchStrings b)
               /\ strings.Contains (composed_url request) str = true) ->
  Blocked (calls (BlockStrings.ServeHTTP b request)) (BlockStrings.statusCode b)
  /\ evaluated (calls (BlockStrings.ServeHTTP b request)) = [].
Proof.
  intros Hs. unfold BlockStrings.ServeHTTP. fold (composed_url request).
  destruct (substring_loop_hit _ _
              "URL is blocked (substring match): (%s): module=%s"
              (BlockStrings.statusCode b) Hs) as [t1 [-> [Hb He]]].
  now split.
Qed.

Lemma BlockExact_forward (b : BlockExact.traefik_block_regex_urls) request :
  slices.Contains (BlockExact.exactMatch b) (composed_url request) = false ->
  (forall re, In re (BlockExact.regexps b) ->
              regexp.MatchString re (composed_url request) = false) ->
  Forwarded (calls (BlockExact.ServeHTTP b request)) request.
Proof.
  intros Hs Hr. unfold BlockExact.ServeHTTP. fold (composed_url request).
  rewrite Hs.
  destruct (regex_loop_miss _ _ "URL is blocked (regex match): (%s) module=%s"
              (BlockExact.statusCode b) Hr) as [t2 [Ht2 Hq2]].
  unfold when at 1. unfold bind at 1. unfold ret. unfold bind at 1. rewrite Ht2.
  cbn [next_ServeHTTP call calls fst app].
  now apply Forwarded_after_quiet.
Qed.

Lemma BlockExact_exact_hit (b : BlockExact.traefik_block_regex_urls) request :
  slices.Contains (BlockExact.exactMatch b) (composed_url request) = true ->
  Blocked (calls (BlockExact.ServeHTTP b request)) (BlockExact.statusCode b)
  /\ evaluated (calls (BlockExact.ServeHTTP b request)) = [].
Proof.
  intros Hs. unfold BlockExact.ServeHTTP. fold (composed_url request).
  rewrite Hs. split; [split |]; reflexivity.
Qed.

End StringRuleLemmas.

(** ** What [ServeHTTP] logs *)
Section LoggingLemmas.
Context {R : regexp.Lib}.














Lemma Contains_empty (s : string) : strings.Contains s "" = true.
Proof. now destruct s. Qed.

End LoggingLemmas.

(** * The properties *)

(** ** Regex rules with the exemption of private addresses *)
Section ExemptionProperties.
Context {R : regexp.Lib}.

Lemma exempt_when_all_private (config : BlockIP.Config) name b request :
  BlockIP.New config name = Ok b ->
  BlockIP.AllowLocalRequests config = true ->
  Forall private_address (fst (iphelpers.CollectRemoteIP request)) ->
  exempt b request = true.
Proof.
  intros Hnew Hallow Hpriv.
  destruct (BlockIP_New_ok _ _ _ Hnew) as [_ [_ [Ha [_ Hinit]]]].
  unfold exempt. rewrite Ha, Hallow. cbn [andb].
  now apply (all_private_iff _ _ Hinit).
Qed.

Lemma not_exempt_when_some_public (config : BlockIP.Config) name b request :
  BlockIP.New config name = Ok b ->
  Exists (fun ip => ~ private_address ip) (fst (iphelpers.CollectRemoteIP request)) ->
  exempt b request = false.
Proof.
  intros Hnew Hpub.
  destruct (BlockIP_New_ok _ _ _ Hnew) as [_ [_ [_ [_ Hinit]]]].
  unfold exempt. apply andb_false_iff. right.
  now apply (some_public_iff _ _ Hinit).
Qed.

Lemma not_exempt_when_disabled (config : BlockIP.Config) name b request :
  BlockIP.New config name = Ok b ->
  BlockIP.AllowLocalRequests config = false ->
  exempt b request = false.
Proof.
  intros Hnew Hallow.
  destruct (BlockIP_New_ok _ _ _ Hnew) as [_ [_ [Ha _]]].
  unfold exempt. now rewrite Ha, Hallow.
Qed.

Lemma BlockIP_blocks (config : BlockIP.Config) name b request :
  BlockIP.New config name = Ok b ->
  some_regex_matches (BlockIP.Regex config) (composed_url request) ->
  exempt b request = false ->
  Blocked (calls (BlockIP.ServeHTTP b request)) (BlockIP.StatusCode config).
Proof.
  intros Hnew Hmatch He.
  destruct (BlockIP_New_ok _ _ _ Hnew) as [_ [Hc [_ [Hs _]]]].
  rewrite <- Hs. apply ServeHTTP_block; [|assumption].
  now apply (compiled_from_hit _ _ _ Hc).
Qed.

Lemma BlockIP_forwards_no_match (config : BlockIP.Config) name b request :
  BlockIP.New config name = Ok b ->
  no_regex_matches (BlockIP.Regex config) (composed_url request) ->
  Forwarded (calls (BlockIP.ServeHTTP b request)) request.
Proof.
  intros Hnew Hno.
  destruct (BlockIP_New_ok _ _ _ Hnew) as [_ [Hc _]].
  apply ServeHTTP_miss. now apply (compiled_from_miss _ _ _ Hc).
Qed.

(** C1.  In [traefik_block_regex_urls.go] with [allowLocalRequests] true,
    for a request whose composed URL matches a configured regex: when
    every address collected from [X-Forwarded-For] and [X-Real-IP] is
    private the request goes to the next handler; when some collected
    address is not private the configured status code is written and the
    next handler is not invoked. *)
Theorem exemption_follows_addresses (config : BlockIP.Config) name b request :
  BlockIP.New config name = Ok b ->
  BlockIP.AllowLocalRequests config = true ->
  some_regex_matches (BlockIP.Regex config) (composed_url request) ->
  (Forall private_address (fst (iphelpers.CollectRemoteIP request)) ->
   Forwarded (calls (BlockIP.ServeHTTP b request)) request)
  /\ (Exists (fun ip => ~ private_address ip)
        (fst (iphelpers.CollectRemoteIP request)) ->
      Blocked (calls (BlockIP.ServeHTTP b request)) (BlockIP.StatusCode config)).
Proof.
  intros Hnew Hallow Hmatch. split.
  - intros Hpriv. apply ServeHTTP_exempt.
    exact (exempt_when_all_private _ _ _ _ Hnew Hallow Hpriv).
  - intros Hpub. apply (BlockIP_blocks _ _ _ _ Hnew Hmatch).
    exact (not_exempt_when_some_public _ _ _ _ Hnew Hpub).
Qed.

(** C3.  With [allowLocalRequests] false, a request whose composed URL
    matches a configured regex gets the configured status code and the
    next handler is not invoked, whatever the forwarding headers hold. *)
Theorem disabled_exemption_blocks (config : BlockIP.Config) name b request :
  BlockIP.New config name = Ok b ->
  BlockIP.AllowLocalRequests config = false ->
  some_regex_matches (BlockIP.Regex config) (composed_url request) ->
  Blocked (calls (BlockIP.ServeHTTP b request)) (BlockIP.StatusCode config).
Proof.
  intros Hnew Hallow Hmatch. apply (BlockIP_blocks _ _ _ _ Hnew Hmatch).
  exact (not_exempt_when_disabled _ _ _ _ Hnew Hallow).
Qed.

(** C5.  With [allowLocalRequests] true and a URL that matches a regex,
    a request from which no address is collected is forwarded; both
    forwarding headers absent or empty is such a request. *)
Theorem no_address_is_exempt (config : BlockIP.Config) name b request :
  BlockIP.New config name = Ok b ->
  BlockIP.AllowLocalRequests config = true ->
  some_regex_matches (BlockIP.Regex config) (composed_url request) ->
  (http.Header_Get (http.Header_ request) "X-Forwarded-For" = EmptyString ->
   http.Header_Get (http.Header_ request) "X-Real-IP" = EmptyString ->
   iphelpers.CollectRemoteIP request = ([], None))
  /\ (fst (iphelpers.CollectRemoteIP request) = [] ->
      Forwarded (calls (BlockIP.ServeHTTP b request)) request).
Proof.
  intros Hnew Hallow Hmatch. split.
  - intros Hf Hr. unfold iphelpers.CollectRemoteIP. now rewrite Hf, Hr.
  - intros Hnil. apply ServeHTTP_exempt.
    apply (exempt_when_all_private _ _ _ _ Hnew Hallow).
    rewrite Hnil. constructor.
Qed.

End ExemptionProperties.

Lemma wp_matches headers :
  some_regex_matches (R := MiniRegexp.lib) Examples.wp
    (composed_url (Examples.wp_login headers)).
Proof.
  exists "^localhost/wp(.*)". split; [now left |].
  eexists. split; [reflexivity | reflexivity].
Qed.

Lemma exemption_follows_addresses_witness :
  exists b : BlockIP.traefik_block_regex_urls (R := MiniRegexp.lib),
    BlockIP.New (Examples.config true Examples.wp) "blockurls" = Ok b
    /\ Forwarded
         (calls (BlockIP.ServeHTTP b (Examples.wp_login [("X-Real-IP", "192.168.1.1")])))
         (Examples.wp_login [("X-Real-IP", "192.168.1.1")])
    /\ Blocked
         (calls (BlockIP.ServeHTTP b (Examples.wp_login [("X-Forwarded-For", "2.56.20.0")])))
         404.
Proof.
  eexists. split; [reflexivity |]. split.
  - apply (proj1 (exemption_follows_addresses (R := MiniRegexp.lib)
                    (Examples.config true Examples.wp) "blockurls" _ _
                    eq_refl eq_refl (wp_matches _))).
    apply (all_private_iff _ _ eq_refl). vm_compute. reflexivity.
  - apply (proj2 (exemption_follows_addresses (R := MiniRegexp.lib)
                    (Examples.config true Examples.wp) "blockurls" _ _
                    eq_refl eq_refl (wp_matches _))).
    apply (some_public_iff _ _ eq_refl). vm_compute. reflexivity.
Defined.

Lemma disabled_exemption_blocks_witness :
  exists b : BlockIP.traefik_block_regex_urls (R := MiniRegexp.lib),
    BlockIP.New (Examples.config false Examples.wp) "blockurls" = Ok b
    /\ Blocked
         (calls (BlockIP.ServeHTTP b (Examples.wp_login [("X-Real-IP", "192.168.1.1")])))
         404.
Proof.
  eexists. split; [reflexivity |].
  exact (disabled_exemption_blocks (R := MiniRegexp.lib)
           (Examples.config false Examples.wp) "blockurls" _
           (Examples.wp_login [("X-Real-IP", "192.168.1.1")])
           eq_refl eq_refl (wp_matches _)).
Defined.

Lemma no_address_is_exempt_witness :
  exists b : BlockIP.traefik_block_regex_urls (R := MiniRegexp.lib),
    BlockIP.New (Examples.config true Examples.wp) "blockurls" = Ok b
    /\ iphelpers.CollectRemoteIP (Examples.wp_login []) = ([], None)
    /\ Forwarded (calls (BlockIP.ServeHTTP b (Examples.wp_login [])))
         (Examples.wp_login []).
Proof.
  eexists. split; [reflexivity |]. split.
  - exact (proj1 (no_address_is_exempt (R := MiniRegexp.lib)
                    (Examples.config true Examples.wp) "blockurls" _
                    (Examples.wp_login []) eq_refl eq_refl (wp_matches _))
             eq_refl eq_refl).
  - exact (proj2 (no_address_is_exempt (R := MiniRegexp.lib)
                    (Examples.config true Examples.wp) "blockurls" _
                    (Examples.wp_login []) eq_refl eq_refl (wp_matches _))
             eq_refl).
Defined.

(** ** Collecting the forwarded addresses *)
Section CollectProperties.
Context {R : regexp.Lib}.

Lemma collect_all (request : http.Request) ips1 ips2 :
  parse_to (forwarded_for_tokens request) ips1 ->
  parse_to (real_ip_tokens request) ips2 ->
  iphelpers.CollectRemoteIP request = (ips1 ++ ips2, None).
Proof.
  intros H1 H2. rewrite CollectRemoteIP_tokens.
  apply (CollectRemoteIP_loop_ok _ _ []). now apply Forall2_app.
Qed.

Lemma first_failure (values : list string) :
  (exists token, In token values /\ net.ParseIP token = None) ->
  exists pre bad post ips,
    values = pre ++ bad :: post /\ parse_to pre ips /\ net.ParseIP bad = None.
Proof.
  intros [token [Hin Hnone]].
  destruct (parse_to_or_first_failure values) as [[ips Hall] | H]; [|exact H].
  destruct (Forall2_In_l _ _ _ Hall token Hin) as [ip [_ Hip]]. congruence.
Qed.

Lemma collect_first_failure (request : http.Request) pre bad post ips :
  forwarded_for_tokens request ++ real_ip_tokens request = pre ++ bad :: post ->
  parse_to pre ips ->
  net.ParseIP bad = None ->
  iphelpers.CollectRemoteIP request
  = (ips, Some (iphelpers.ErrParsingFailed (iphelpers.ErrUnableToParse bad))).
Proof.
  intros Ht Hpre Hbad. rewrite CollectRemoteIP_tokens, Ht.
  exact (CollectRemoteIP_loop_fail _ _ _ _ [] Hpre Hbad).
Qed.


(** C9, as the code has it.  [CollectRemoteIP] reads [X-Forwarded-For]
    and then [X-Real-IP], splits each value at commas and parses each
    token as it stands: for header values made of address literals
    separated by commas, with nothing around the literals, it succeeds and
    returns the addresses of [X-Forwarded-For] followed by those of
    [X-Real-IP], in order. *)
Theorem collect_comma_separated (request : http.Request) xff xri ips1 ips2 :
  http.Header_Get (http.Header_ request) "X-Forwarded-For" = comma_separated xff ->
  http.Header_Get (http.Header_ request) "X-Real-IP" = comma_separated xri ->
  parse_to xff ips1 ->
  parse_to xri ips2 ->
  iphelpers.CollectRemoteIP request = (ips1 ++ ips2, None).
Proof.
  intros Hf Hr H1 H2. apply collect_all.
  - unfold forwarded_for_tokens. rewrite Hf.
    now rewrite (FieldsFunc_Join _ (parse_to_tokens _ _ H1)).
  - unfold real_ip_tokens. rewrite Hr.
    now rewrite (FieldsFunc_Join _ (parse_to_tokens _ _ H2)).
Qed.

(** C10.  [CollectRemoteIP] returns the addresses of the tokens of
    [X-Forwarded-For] followed by those of [X-Real-IP]; at the first
    token that does not parse it returns the addresses parsed so far with
    an error, whatever the later tokens and, for a failure in
    [X-Forwarded-For], whatever [X-Real-IP] holds; and [ServeHTTP]
    applies the test for private addresses to the list it got back with
    the error. *)
Theorem collect_stops_at_first_failure (request : http.Request) :
  (forall ips1 ips2,
     parse_to (forwarded_for_tokens request) ips1 ->
     parse_to (real_ip_tokens request) ips2 ->
     iphelpers.CollectRemoteIP request = (ips1 ++ ips2, None))
  /\ (forall pre bad post ips,
        forwarded_for_tokens request = pre ++ bad :: post ->
        parse_to pre ips ->
        net.ParseIP bad = None ->
        iphelpers.CollectRemoteIP request
        = (ips, Some (iphelpers.ErrParsingFailed (iphelpers.ErrUnableToParse bad))))
  /\ (forall ips1 pre bad post ips2,
        parse_to (forwarded_for_tokens request) ips1 ->
        real_ip_tokens request = pre ++ bad :: post ->
        parse_to pre ips2 ->
        net.ParseIP bad = None ->
        iphelpers.CollectRemoteIP request
        = (ips1 ++ ips2,
           Some (iphelpers.ErrParsingFailed (iphelpers.ErrUnableToParse bad))))
  /\ (forall (config : BlockIP.Config) name b err,
        BlockIP.New config name = Ok b ->
        BlockIP.AllowLocalRequests config = true ->
        some_regex_matches (BlockIP.Regex config) (composed_url request) ->
        snd (iphelpers.CollectRemoteIP request) = Some err ->
        (Forall private_address (fst (iphelpers.CollectRemoteIP request)) ->
         Forwarded (calls (BlockIP.ServeHTTP b request)) request)
        /\ (Exists (fun ip => ~ private_address ip)
              (fst (iphelpers.CollectRemoteIP request)) ->
            Blocked (calls (BlockIP.ServeHTTP b request)) (BlockIP.StatusCode config))).
Proof.
  split; [|split; [|split]].
  - intros ips1 ips2. apply collect_all.
  - intros pre bad post ips Ht Hpre Hbad.
    apply (collect_first_failure request pre bad (post ++ real_ip_tokens request));
      [|assumption..].
    rewrite Ht, <- app_assoc. reflexivity.
  - intros ips1 pre bad post ips2 H1 Ht Hpre Hbad.
    apply (collect_first_failure request (forwarded_for_tokens request ++ pre) bad post);
      [| now apply Forall2_app | assumption].
    rewrite Ht, <- app_assoc. reflexivity.
  - intros config name b err Hnew Hallow Hmatch _. split.
    + intros Hpriv. apply ServeHTTP_exempt.
      exact (exempt_when_all_private _ _ _ _ Hnew Hallow Hpriv).
    + intros Hpub. apply (BlockIP_blocks _ _ _ _ Hnew Hmatch).
      exact (not_exempt_when_some_public _ _ _ _ Hnew Hpub).
Qed.

End CollectProperties.



(** C9 as the specification words it fails: a space after the comma stays
    in the token, the token does not parse, and extraction ends with an
    error after the first address. *)
Lemma whitespace_token_fails :
  net.ParseIP "10.0.0.1" = Some [0; 0; 0; 0; 0; 0; 0; 0; 0; 0; 255; 255; 10; 0; 0; 1]
  /\ net.ParseIP "10.0.0.2" = Some [0; 0; 0; 0; 0; 0; 0; 0; 0; 0; 255; 255; 10; 0; 0; 2]
  /\ iphelpers.CollectRemoteIP
       (Examples.wp_login [("X-Forwarded-For", "10.0.0.1, 10.0.0.2")])
     = ([[0; 0; 0; 0; 0; 0; 0; 0; 0; 0; 255; 255; 10; 0; 0; 1]],
        Some (iphelpers.ErrParsingFailed (iphelpers.ErrUnableToParse " 10.0.0.2")))
  /\ iphelpers.CollectRemoteIP
       (Examples.wp_login [("X-Forwarded-For", "10.0.0.1, 10.0.0.2")])
     <> ([[0; 0; 0; 0; 0; 0; 0; 0; 0; 0; 255; 255; 10; 0; 0; 1];
          [0; 0; 0; 0; 0; 0; 0; 0; 0; 0; 255; 255; 10; 0; 0; 2]], None).
Proof.
  split; [reflexivity |]. split; [reflexivity |]. split; [vm_compute; reflexivity |].
  intros H. vm_compute in H. discriminate H.
Qed.

Lemma collect_comma_separated_witness :
  iphelpers.CollectRemoteIP
    (Examples.wp_login [("X-Forwarded-For", "10.0.0.1,2.56.20.0"); ("X-Real-IP", "fe80::1")])
  = ([[0; 0; 0; 0; 0; 0; 0; 0; 0; 0; 255; 255; 10; 0; 0; 1];
      [0; 0; 0; 0; 0; 0; 0; 0; 0; 0; 255; 255; 2; 56; 20; 0]]
     ++ [[254; 128; 0; 0; 0; 0; 0; 0; 0; 0; 0; 0; 0; 0; 0; 1]], None).
Proof.
  apply (collect_comma_separated
           (Examples.wp_login [("X-Forwarded-For", "10.0.0.1,2.56.20.0"); ("X-Real-IP", "fe80::1")])
           ["10.0.0.1"; "2.56.20.0"] ["fe80::1"]).
  - vm_compute. reflexivity.
  - vm_compute. reflexivity.
  - repeat constructor.
  - repeat constructor.
Defined.

Lemma collect_stops_at_first_failure_witness :
  iphelpers.CollectRemoteIP
    (Examples.wp_login [("X-Forwarded-For", "10.0.0.1,garbage,2.56.20.0"); ("X-Real-IP", "8.8.8.8")])
  = ([[0; 0; 0; 0; 0; 0; 0; 0; 0; 0; 255; 255; 10; 0; 0; 1]],
     Some (iphelpers.ErrParsingFailed (iphelpers.ErrUnableToParse "garbage")))
  /\ exists b : BlockIP.traefik_block_regex_urls (R := MiniRegexp.lib),
       BlockIP.New (Examples.config true Examples.wp) "blockurls" = Ok b
       /\ Forwarded
            (calls (BlockIP.ServeHTTP b
               (Examples.wp_login [("X-Forwarded-For", "10.0.0.1,garbage,2.56.20.0"); ("X-Real-IP", "8.8.8.8")])))
            (Examples.wp_login [("X-Forwarded-For", "10.0.0.1,garbage,2.56.20.0"); ("X-Real-IP", "8.8.8.8")]).
Proof.
  pose proof (collect_stops_at_first_failure (R := MiniRegexp.lib)
                (Examples.wp_login [("X-Forwarded-For", "10.0.0.1,garbage,2.56.20.0"); ("X-Real-IP", "8.8.8.8")]))
    as [_ [Hfail [_ Hserve]]].
  split.
  - apply (Hfail ["10.0.0.1"] "garbage" ["2.56.20.0"]).
    + vm_compute. reflexivity.
    + repeat constructor.
    + reflexivity.
  - eexists. split; [reflexivity |].
    apply (proj1 (Hserve (Examples.config true Examples.wp) "blockurls" _
                    (iphelpers.ErrParsingFailed (iphelpers.ErrUnableToParse "garbage"))
                    eq_refl eq_refl (wp_matches _) ltac:(vm_compute; reflexivity))).
    apply (all_private_iff _ _ eq_refl). vm_compute. reflexivity.
Defined.

(** ** Rules and construction, over all revisions *)
Section RuleProperties.
Context {R : regexp.Lib}.

Lemma no_string_occurs_Contains (strs : list string) (url : string) :
  no_string_occurs strs url ->
  forall str, In str strs -> strings.Contains url str = false.
Proof.
  intros H str Hin. destruct (strings.Contains url str) eqn:Hc; [|reflexivity].
  exfalso. apply (H str Hin). now apply Contains_iff.
Qed.

Lemma some_string_occurs_Contains (strs : list string) (url : string) :
  some_string_occurs strs url ->
  exists str, In str strs /\ strings.Contains url str = true.
Proof.
  intros [str [Hin Hs]]. exists str. split; [assumption | now apply Contains_iff].
Qed.

Lemma not_In_slices_Contains (l : list string) (v : string) :
  ~ In v l -> slices.Contains l v = false.
Proof.
  intros H. destruct (slices.Contains l v) eqn:Hc; [|reflexivity].
  exfalso. now apply H, slices_Contains_iff.
Qed.

(** C2.  In every revision, a request whose composed URL matches none of
    the configured strings and none of the configured regexes goes to
    the next handler, once and as it came, and no status code is
    written. *)
Theorem no_match_forwards :
  (forall (config : BlockIP.Config) name b request,
     BlockIP.New config name = Ok b ->
     no_regex_matches (BlockIP.Regex config) (composed_url request) ->
     Forwarded (calls (BlockIP.ServeHTTP b request)) request)
  /\ (forall (config : BlockStringsIP.Config) name b request,
        BlockStringsIP.New config name = Ok b ->
        no_string_occurs (BlockStringsIP.MatchStrings config) (composed_url request) ->
        no_regex_matches (BlockStringsIP.Regex config) (composed_url request) ->
        Forwarded (calls (BlockStringsIP.ServeHTTP b request)) request)
  /\ (forall (config : BlockStrings.Config) name b request,
        BlockStrings.New config name = Ok b ->
        no_string_occurs (BlockStrings.MatchStrings config) (composed_url request) ->
        no_regex_matches (BlockStrings.Regex config) (composed_url request) ->
        Forwarded (calls (BlockStrings.ServeHTTP b request)) request)
  /\ (forall (config : BlockExact.Config) name b request,
        BlockExact.New config name = Ok b ->
        ~ In (composed_url request) (BlockExact.ExactMatch config) ->
        no_regex_matches (BlockExact.Regex config) (composed_url request) ->
        Forwarded (calls (BlockExact.ServeHTTP b request)) request).
Proof.
  split; [|split; [|split]].
  - intros config name b request. apply BlockIP_forwards_no_match.
  - intros config name b request Hnew Hs Hr.
    destruct (BlockStringsIP_New_ok _ _ _ Hnew) as [Hc [Hm _]].
    apply BlockStringsIP_forward.
    + rewrite Hm. now apply no_string_occurs_Contains.
    + now apply (compiled_from_miss _ _ _ Hc).
  - intros config name b request Hnew Hs Hr.
    destruct (BlockStrings_New_ok _ _ _ Hnew) as [Hc [Hm _]].
    apply BlockStrings_forward.
    + rewrite Hm. now apply no_string_occurs_Contains.
    + now apply (compiled_from_miss _ _ _ Hc).
  - intros config name b request Hnew Hs Hr.
    destruct (BlockExact_New_ok _ _ _ Hnew) as [Hc [Hm _]].
    apply BlockExact_forward.
    + rewrite Hm. now apply not_In_slices_Contains.
    + now apply (compiled_from_miss _ _ _ Hc).
Qed.

(** C6.  In every revision, a configuration with a regex string that
    does not compile makes [New] return an error, and with it no
    handler; and the rule set of a handler that [New] does return is the
    whole configured list, compiled. *)
Theorem invalid_regex_no_handler :
  (forall (config : BlockIP.Config) name,
     ((exists pattern, In pattern (BlockIP.Regex config) /\ fails_to_compile pattern) ->
      exists pattern e, In pattern (BlockIP.Regex config)
        /\ BlockIP.New config name = Err (ErrCompilingRegex pattern e))
     /\ (forall b, BlockIP.New config name = Ok b ->
           compiled_from (BlockIP.Regex config) (BlockIP.regexps b)))
  /\ (forall (config : BlockStringsIP.Config) name,
     ((exists pattern, In pattern (BlockStringsIP.Regex config) /\ fails_to_compile pattern) ->
      exists pattern e, In pattern (BlockStringsIP.Regex config)
        /\ BlockStringsIP.New config name = Err (ErrCompilingRegex pattern e))
     /\ (forall b, BlockStringsIP.New config name = Ok b ->
           compiled_from (BlockStringsIP.Regex config) (BlockStringsIP.regexps b)))
  /\ (forall (config : BlockStrings.Config) name,
     ((exists pattern, In pattern (BlockStrings.Regex config) /\ fails_to_compile pattern) ->
      exists pattern e, In pattern (BlockStrings.Regex config)
        /\ BlockStrings.New config name = Err (ErrCompilingRegex pattern e))
     /\ (forall b, BlockStrings.New config name = Ok b ->
           compiled_from (BlockStrings.Regex config) (BlockStrings.regexps b)))
  /\ (forall (config : BlockExact.Config) name,
     ((exists pattern, In pattern (BlockExact.Regex config) /\ fails_to_compile pattern) ->
      exists pattern e, In pattern (BlockExact.Regex config)
        /\ BlockExact.New config name = Err (ErrCompilingRegex pattern e))
     /\ (forall b, BlockExact.New config name = Ok b ->
           compiled_from (BlockExact.Regex config) (BlockExact.regexps b))).
Proof.
  split; [|split; [|split]]; intros config name; split.
  - intros Hbad. destruct (compile_loop_fails _ [] Hbad) as [p [e [Hin He]]].
    exists p, e. split; [assumption |]. unfold BlockIP.New. rewrite He.
    destruct (BlockIP.Regex config); [destruct Hin | reflexivity].
  - intros b Hnew. exact (proj1 (proj2 (BlockIP_New_ok _ _ _ Hnew))).
  - intros Hbad. destruct (compile_loop_fails _ [] Hbad) as [p [e [Hin He]]].
    exists p, e. split; [assumption |]. unfold BlockStringsIP.New. now rewrite He.
  - intros b Hnew. exact (proj1 (BlockStringsIP_New_ok _ _ _ Hnew)).
  - intros Hbad. destruct (compile_loop_fails _ [] Hbad) as [p [e [Hin He]]].
    exists p, e. split; [assumption |]. unfold BlockStrings.New. now rewrite He.
  - intros b Hnew. exact (proj1 (BlockStrings_New_ok _ _ _ Hnew)).
  - intros Hbad. destruct (compile_loop_fails _ [] Hbad) as [p [e [Hin He]]].
    exists p, e. split; [assumption |]. unfold BlockExact.New. now rewrite He.
  - intros b Hnew. exact (proj1 (BlockExact_New_ok _ _ _ Hnew)).
Qed.

(** C7.  In the revisions with string rules the strings are tested
    before the regexes: a request whose composed URL contains a
    configured string (is a configured string, in the exact-match
    revision) gets the configured status code whatever the regex rules
    are, and no regex is evaluated for it. *)
Theorem string_rules_first :
  (forall (config : BlockStringsIP.Config) name b request,
     BlockStringsIP.New config name = Ok b ->
     some_string_occurs (BlockStringsIP.MatchStrings config) (composed_url request) ->
     Blocked (calls (BlockStringsIP.ServeHTTP b request)) (BlockStringsIP.StatusCode config)
     /\ evaluated (calls (BlockStringsIP.ServeHTTP b request)) = [])
  /\ (forall (config : BlockStrings.Config) name b request,
        BlockStrings.New config name = Ok b ->
        some_string_occurs (BlockStrings.MatchStrings config) (composed_url request) ->
        Blocked (calls (BlockStrings.ServeHTTP b request)) (BlockStrings.StatusCode config)
        /\ evaluated (calls (BlockStrings.ServeHTTP b request)) = [])
  /\ (forall (config : BlockExact.Config) name b request,
        BlockExact.New config name = Ok b ->
        In (composed_url request) (BlockExact.ExactMatch config) ->
        Blocked (calls (BlockExact.ServeHTTP b request)) (BlockExact.StatusCode config)
        /\ evaluated (calls (BlockExact.ServeHTTP b request)) = []).
Proof.
  split; [|split].
  - intros config name b request Hnew Hs.
    destruct (BlockStringsIP_New_ok _ _ _ Hnew) as [_ [Hm Hcode]].
    rewrite <- Hcode. apply BlockStringsIP_string_hit.
    rewrite Hm. now apply some_string_occurs_Contains.
  - intros config name b request Hnew Hs.
    destruct (BlockStrings_New_ok _ _ _ Hnew) as [_ [Hm Hcode]].
    rewrite <- Hcode. apply BlockStrings_string_hit.
    rewrite Hm. now apply some_string_occurs_Contains.
  - intros config name b request Hnew Hs.
    destruct (BlockExact_New_ok _ _ _ Hnew) as [_ [Hm Hcode]].
    rewrite <- Hcode. apply BlockExact_exact_hit.
    rewrite Hm. now apply slices_Contains_iff.
Qed.

(** C8, as the code has it.  In the revisions with string rules a
    configuration without regexes and without strings gives a handler,
    and that handler passes every request to the next handler; in
    [traefik_block_regex_urls.go], [New] answers a configuration without
    regexes with the error "the regex list is empty". *)
Theorem empty_rules_forward :
  (forall (config : BlockStringsIP.Config) name,
     BlockStringsIP.Regex config = [] -> BlockStringsIP.MatchStrings config = [] ->
     exists b, BlockStringsIP.New config name = Ok b
       /\ forall request, Forwarded (calls (BlockStringsIP.ServeHTTP b request)) request)
  /\ (forall (config : BlockStrings.Config) name,
        BlockStrings.Regex config = [] -> BlockStrings.MatchStrings config = [] ->
        exists b, BlockStrings.New config name = Ok b
          /\ forall request, Forwarded (calls (BlockStrings.ServeHTTP b request)) request)
  /\ (forall (config : BlockExact.Config) name,
        BlockExact.Regex config = [] -> BlockExact.ExactMatch config = [] ->
        exists b, BlockExact.New config name = Ok b
          /\ forall request, Forwarded (calls (BlockExact.ServeHTTP b request)) request)
  /\ (forall (config : BlockIP.Config) name,
        BlockIP.Regex config = [] ->
        BlockIP.New config name = Err ErrRegexListEmpty).
Proof.
  split; [|split; [|split]].
  - intros config name Hr Hm. unfold BlockStringsIP.New. rewrite Hr, Hm.
    destruct InitializePrivateIPBlocks_no_panic as [blocks ->].
    eexists. split; [reflexivity |]. intros request.
    apply BlockStringsIP_forward; intros x [].
  - intros config name Hr Hm. unfold BlockStrings.New. rewrite Hr, Hm.
    eexists. split; [reflexivity |]. intros request.
    apply BlockStrings_forward; intros x [].
  - intros config name Hr Hm. unfold BlockExact.New. rewrite Hr, Hm.
    eexists. split; [reflexivity |]. intros request.
    apply BlockExact_forward; [reflexivity | intros x []].
  - intros config name Hr. unfold BlockIP.New. now rewrite Hr.
Qed.

End RuleProperties.

Lemma no_match_forwards_witness :
  (exists b : BlockIP.traefik_block_regex_urls (R := MiniRegexp.lib),
     BlockIP.New (Examples.config true Examples.wp) "blockurls" = Ok b
     /\ Forwarded
          (calls (BlockIP.ServeHTTP b
             (Examples.request "localhost" "/index.html" [("X-Forwarded-For", "2.56.20.0")])))
          (Examples.request "localhost" "/index.html" [("X-Forwarded-For", "2.56.20.0")]))
  /\ (exists b : BlockStrings.traefik_block_regex_urls (R := MiniRegexp.lib),
        BlockStrings.New
          {| BlockStrings.Regex := Examples.wp;
             BlockStrings.MatchStrings := ["something"];
             BlockStrings.SilentStartUp := true;
             BlockStrings.StatusCode := 418 |} "blockurls" = Ok b
        /\ Forwarded
             (calls (BlockStrings.ServeHTTP b (Examples.request "localhost" "/index.html" [])))
             (Examples.request "localhost" "/index.html" [])).
Proof.
  split.
  - eexists. split; [reflexivity |].
    apply (proj1 (no_match_forwards (R := MiniRegexp.lib))
             (Examples.config true Examples.wp) "blockurls" _ _ eq_refl).
    intros p [<- | []] [re [Hc Hm]]. injection Hc as <-. discriminate Hm.
  - eexists. split; [reflexivity |].
    apply (proj1 (proj2 (proj2 (no_match_forwards (R := MiniRegexp.lib))))
             {| BlockStrings.Regex := Examples.wp;
                BlockStrings.MatchStrings := ["something"];
                BlockStrings.SilentStartUp := true;
                BlockStrings.StatusCode := 418 |} "blockurls" _ _ eq_refl).
    + intros str [<- | []] Hs. apply Contains_iff in Hs. discriminate Hs.
    + intros p [<- | []] [re [Hc Hm]]. injection Hc as <-. discriminate Hm.
Defined.

Lemma invalid_regex_no_handler_witness :
  exists pattern e,
    In pattern ["^localhost/wp(.*)"; "^localhost/(admin"]
    /\ BlockIP.New (R := MiniRegexp.lib)
         (Examples.config true ["^localhost/wp(.*)"; "^localhost/(admin"]) "blockurls"
       = Err (ErrCompilingRegex pattern e).
Proof.
  apply (proj1 (proj1 (invalid_regex_no_handler (R := MiniRegexp.lib))
                  (Examples.config true ["^localhost/wp(.*)"; "^localhost/(admin"])
                  "blockurls")).
  exists "^localhost/(admin". split; [right; now left |].
  exists MiniRegexp.MissingParen. reflexivity.
Defined.

Lemma string_rules_first_witness :
  (exists b : BlockStrings.traefik_block_regex_urls (R := MiniRegexp.lib),
     BlockStrings.New
       {| BlockStrings.Regex := Examples.wp;
          BlockStrings.MatchStrings := ["something"];
          BlockStrings.SilentStartUp := true;
          BlockStrings.StatusCode := 418 |} "blockurls" = Ok b
     /\ Blocked
          (calls (BlockStrings.ServeHTTP b
             (Examples.request "localhost" "/wp-content/something/else" [])))
          418
     /\ evaluated
          (calls (BlockStrings.ServeHTTP b
             (Examples.request "localhost" "/wp-content/something/else" []))) = [])
  /\ (exists b : BlockExact.traefik_block_regex_urls (R := MiniRegexp.lib),
        BlockExact.New
          {| BlockExact.Regex := Examples.wp;
             BlockExact.ExactMatch := ["localhost/wp-login"];
             BlockExact.SilentStartUp := true;
             BlockExact.StatusCode := 418 |} "blockurls" = Ok b
        /\ Blocked
             (calls (BlockExact.ServeHTTP b (Examples.wp_login [])))
             418
        /\ evaluated (calls (BlockExact.ServeHTTP b (Examples.wp_login []))) = []).
Proof.
  split.
  - eexists. split; [reflexivity |].
    apply (proj1 (proj2 (string_rules_first (R := MiniRegexp.lib)))
             {| BlockStrings.Regex := Examples.wp;
                BlockStrings.MatchStrings := ["something"];
                BlockStrings.SilentStartUp := true;
                BlockStrings.StatusCode := 418 |} "blockurls" _
             (Examples.request "localhost" "/wp-content/something/else" []) eq_refl).
    exists "something". split; [now left |].
    exists "localhost/wp-content/", "/else". reflexivity.
  - eexists. split; [reflexivity |].
    apply (proj2 (proj2 (string_rules_first (R := MiniRegexp.lib)))
             {| BlockExact.Regex := Examples.wp;
                BlockExact.ExactMatch := ["localhost/wp-login"];
                BlockExact.SilentStartUp := true;
                BlockExact.StatusCode := 418 |} "blockurls" _
             (Examples.wp_login []) eq_refl).
    now left.
Defined.

(** C8 as the specification words it fails: [traefik_block_regex_urls.go]
    builds no handler from the default configuration, which has no rule. *)
Lemma empty_regex_list_rejected :
  BlockIP.Regex BlockIP.CreateConfig = []
  /\ BlockIP.New (R := MiniRegexp.lib) BlockIP.CreateConfig "blockurls"
     = Err ErrRegexListEmpty
  /\ ~ exists b, BlockIP.New (R := MiniRegexp.lib) BlockIP.CreateConfig "blockurls" = Ok b.
Proof.
  split; [reflexivity |]. split; [reflexivity |]. intros [b H]. discriminate H.
Qed.

Lemma empty_rules_forward_witness :
  (exists b : BlockStrings.traefik_block_regex_urls (R := MiniRegexp.lib),
     BlockStrings.New BlockStrings.CreateConfig "blockurls" = Ok b
     /\ forall request, Forwarded (calls (BlockStrings.ServeHTTP b request)) request)
  /\ (exists b : BlockExact.traefik_block_regex_urls (R := MiniRegexp.lib),
        BlockExact.New BlockExact.CreateConfig "blockurls" = Ok b
        /\ forall request, Forwarded (calls (BlockExact.ServeHTTP b request)) request)
  /\ BlockIP.New (R := MiniRegexp.lib) BlockIP.CreateConfig "blockurls"
     = Err ErrRegexListEmpty.
Proof.
  split; [|split].
  - exact (proj1 (proj2 (empty_rules_forward (R := MiniRegexp.lib)))
             BlockStrings.CreateConfig "blockurls" eq_refl eq_refl).
  - exact (proj1 (proj2 (proj2 (empty_rules_forward (R := MiniRegexp.lib))))
             BlockExact.CreateConfig "blockurls" eq_refl eq_refl).
  - exact (proj2 (proj2 (proj2 (empty_rules_forward (R := MiniRegexp.lib))))
             BlockIP.CreateConfig "blockurls" eq_refl).
Defined.

(** The pattern of the repository's tests is anchored, with a caret before
    the path, at the start of the composed URL, and the composed URL
    starts with the host:
    the request of the tests, for [http://localhost/wp-login], is not
    matched and goes to the next handler, also with the exemption off and
    a public address in [X-Forwarded-For]. *)
Remark test_pattern_is_anchored_before_host :
  exists b : BlockIP.traefik_block_regex_urls (R := MiniRegexp.lib),
    BlockIP.New (Examples.config false ["^/wp(.*)"]) "BlockUrls" = Ok b
    /\ Forwarded
         (calls (BlockIP.ServeHTTP b (Examples.wp_login [("X-Forwarded-For", "2.56.20.0")])))
         (Examples.wp_login [("X-Forwarded-For", "2.56.20.0")]).
Proof.
  eexists. split; [reflexivity |]. split; vm_compute; reflexivity.
Qed.

(** * Further properties *)

(** ** Outcomes and evaluations of the rule loops *)
Section OutcomeLemmas.
Context {R : regexp.Lib}.

Lemma Forwarded_not_Blocked (t : list event) request code :
  Forwarded t request -> ~ Blocked t code.
Proof. intros [H _] [H' _]. congruence. Qed.

Lemma hit_iff (patterns : list string) (regexps : list regexp.Regexp) (url : string) :
  compiled_from patterns regexps ->
  (existsb (fun re => regexp.MatchString re url) regexps = true
   <-> some_regex_matches patterns url).
Proof.
  intros Hc. rewrite (compiled_from_hit _ _ url Hc), existsb_exists. reflexivity.
Qed.

Lemma miss_iff (patterns : list string) (regexps : list regexp.Regexp) (url : string) :
  compiled_from patterns regexps ->
  (existsb (fun re => regexp.MatchString re url) regexps = false
   <-> no_regex_matches patterns url).
Proof.
  intros Hc. split.
  - intros H p Hp Hm.
    assert (Hs : some_regex_matches patterns url) by (now exists p).
    apply (hit_iff _ _ _ Hc) in Hs. congruence.
  - intros H. destruct (existsb _ regexps) eqn:He; [|reflexivity].
    apply (hit_iff _ _ _ Hc) in He. destruct He as [p [Hp Hm]].
    exfalso. exact (H p Hp Hm).
Qed.

Lemma existsb_false_all {A} (p : A -> bool) (l : list A) :
  existsb p l = false -> forall x, In x l -> p x = false.
Proof.
  intros H x Hin. destruct (p x) eqn:Hp; [|reflexivity].
  assert (existsb p l = true) by (apply existsb_exists; now exists x). congruence.
Qed.

Lemma upto_first_all {A} (p : A -> bool) (l : list A) :
  (forall x, In x l -> p x = false) -> upto_first p l = l.
Proof.
  induction l as [|x l IH]; intros H; [reflexivity |]. simpl.
  rewrite (H x (or_introl eq_refl)). f_equal. apply IH. intros y Hy. apply H. now right.
Qed.

Lemma upto_first_split {A} (p : A -> bool) (l1 l2 : list A) (x : A) :
  (forall y, In y l1 -> p y = false) -> p x = true ->
  upto_first p (l1 ++ x :: l2) = l1 ++ [x].
Proof.
  induction l1 as [|y l1 IH]; intros H Hx; simpl.
  - now rewrite Hx.
  - rewrite (H y (or_introl eq_refl)). f_equal. apply IH; [|assumption].
    intros z Hz. apply H. now right.
Qed.

(** The evaluations of a loop whose every round evaluates its own pattern
    once and returns exactly when [stop] says so. *)
Lemma for_range_evaluated (l : list regexp.Regexp) (url : string)
    (stop : regexp.Regexp -> bool) (body : regexp.Regexp -> Handler unit) :
  (forall re, evaluated (fst (body re)) = [(re, url)]) ->
  (forall re, snd (body re) = None <-> stop re = true) ->
  evaluated (fst (for_range l body)) = evaluations (upto_first stop l) url
  /\ (snd (for_range l body) = None <-> existsb stop l = true).
Proof.
  intros Hev Hstop. induction l as [|re l [IH1 IH2]].
  - split; [reflexivity | split; discriminate].
  - simpl. specialize (Hev re). specialize (Hstop re).
    destruct (body re) as [t [[]|]]; simpl in *.
    + destruct (stop re); [destruct Hstop as [_ H]; discriminate (H eq_refl) |].
      destruct (for_range l body) as [t' r']. simpl in *.
      rewrite evaluated_app, Hev, IH1. split; [reflexivity | exact IH2].
    + rewrite (proj1 Hstop eq_refl). simpl. split; [assumption | tauto].
Qed.

(** One round of the loops without exemption. *)
Lemma plain_round_evaluated (url msg : string) (code : Z) (re : regexp.Regexp) :
  evaluated (fst (matched <- MatchString re url ;;
                  when matched (log_Printf msg ;; WriteHeader code ;; return_))%handler)
  = [(re, url)]
  /\ (snd (matched <- MatchString re url ;;
           when matched (log_Printf msg ;; WriteHeader code ;; return_))%handler = None
      <-> regexp.MatchString re url = true).
Proof.
  unfold MatchString, bind. destruct (regexp.MatchString re url); simpl.
  - split; [reflexivity | tauto].
  - split; [reflexivity | split; discriminate].
Qed.

(** One round of the loop with exemption. *)
Lemma exempt_round_evaluated (b : BlockIP.traefik_block_regex_urls) request url re :
  evaluated (fst (BlockIP.ServeHTTP_round b request url re)) = [(re, url)]
  /\ (snd (BlockIP.ServeHTTP_round b request url re) = None
      <-> regexp.MatchString re url && negb (exempt b request) = true).
Proof.
  unfold BlockIP.ServeHTTP_round, exempt, MatchString, bind.
  destruct (regexp.MatchString re url); simpl;
    [| split; [reflexivity | split; discriminate]].
  destruct (iphelpers.CollectRemoteIP request) as [ips err]. simpl.
  rewrite isPrivateIp_loop_forallb. cbn [andb].
  destruct (BlockIP.allowLocalRequests b); simpl;
    destruct (forallb (fun ip => iphelpers.IsPrivateIP ip (BlockIP.privateIPRanges b)) ips);
    destruct err; simpl;
    (split; [reflexivity | try tauto; split; discriminate]).
Qed.

End OutcomeLemmas.
(** ** The decision of [ServeHTTP], in full *)
Section DecisionProperties.
Context {R : regexp.Lib}.

Lemma exempt_true_iff (config : BlockIP.Config) name b request :
  BlockIP.New config name = Ok b ->
  (exempt b request = true
   <-> BlockIP.AllowLocalRequests config = true
       /\ Forall private_address (fst (iphelpers.CollectRemoteIP request))).
Proof.
  intros Hnew. destruct (BlockIP_New_ok _ _ _ Hnew) as [_ [_ [Ha [_ Hinit]]]].
  unfold exempt. rewrite Ha, andb_true_iff, (all_private_iff _ _ Hinit). reflexivity.
Qed.

Lemma exempt_false_iff (config : BlockIP.Config) name b request :
  BlockIP.New config name = Ok b ->
  (exempt b request = false
   <-> BlockIP.AllowLocalRequests config = false
       \/ Exists (fun ip => ~ private_address ip)
            (fst (iphelpers.CollectRemoteIP request))).
Proof.
  intros Hnew. destruct (BlockIP_New_ok _ _ _ Hnew) as [_ [_ [Ha [_ Hinit]]]].
  unfold exempt. rewrite Ha, andb_false_iff, (some_public_iff _ _ Hinit). reflexivity.
Qed.

(** X1.  [ServeHTTP] of [traefik_block_regex_urls.go] has exactly two
    outcomes, and which one is decided by the rules and the collected
    addresses alone: the status code is written, once and without a call of
    the next handler, exactly when some configured regex matches the
    composed URL and either [allowLocalRequests] is false or some collected
    address is not private; in every other case the request goes to the
    next handler, once, and nothing is written. *)
Theorem exemption_decision (config : BlockIP.Config) name b request :
  BlockIP.New config name = Ok b ->
  (Blocked (calls (BlockIP.ServeHTTP b request)) (BlockIP.StatusCode config)
   <-> some_regex_matches (BlockIP.Regex config) (composed_url request)
       /\ (BlockIP.AllowLocalRequests config = false
           \/ Exists (fun ip => ~ private_address ip)
                (fst (iphelpers.CollectRemoteIP request))))
  /\ (Forwarded (calls (BlockIP.ServeHTTP b request)) request
      <-> no_regex_matches (BlockIP.Regex config) (composed_url request)
          \/ (BlockIP.AllowLocalRequests config = true
              /\ Forall private_address (fst (iphelpers.CollectRemoteIP request))))
  /\ (Blocked (calls (BlockIP.ServeHTTP b request)) (BlockIP.StatusCode config)
      \/ Forwarded (calls (BlockIP.ServeHTTP b request)) request).
Proof.
  intros Hnew.
  destruct (BlockIP_New_ok _ _ _ Hnew) as [_ [Hc [_ [Hs _]]]].
  pose proof (hit_iff _ _ (composed_url request) Hc) as Hhit.
  pose proof (miss_iff _ _ (composed_url request) Hc) as Hmiss.
  pose proof (exempt_true_iff _ _ _ request Hnew) as Het.
  pose proof (exempt_false_iff _ _ _ request Hnew) as Hef.
  rewrite <- Hs.
  destruct (exempt b request) eqn:He.
  - assert (Hf : Forwarded (calls (BlockIP.ServeHTTP b request)) request)
      by now apply ServeHTTP_exempt.
    split; [|split; [|now right]].
    + split; [intros Hb; exfalso; exact (Forwarded_not_Blocked _ _ _ Hf Hb) |].
      intros [_ H]. apply Hef in H. discriminate H.
    + split; [intros _; right; now apply Het | intros _; exact Hf].
  - destruct (existsb (fun re => regexp.MatchString re (composed_url request))
                (BlockIP.regexps b)) eqn:Hh.
    + assert (Hb : Blocked (calls (BlockIP.ServeHTTP b request)) (BlockIP.statusCode b)).
      { apply ServeHTTP_block; [|assumption]. now apply existsb_exists. }
      split; [|split; [|now left]].
      * split; [intros _; split; [now apply Hhit | now apply Hef] | intros _; exact Hb].
      * split; [intros Hf; exfalso; exact (Forwarded_not_Blocked _ _ _ Hf Hb) |].
        intros [H | H]; [apply Hmiss in H; congruence | apply Het in H; discriminate H].
    + assert (Hf : Forwarded (calls (BlockIP.ServeHTTP b request)) request).
      { apply ServeHTTP_miss. now apply existsb_false_all. }
      split; [|split; [|now right]].
      * split; [intros Hb; exfalso; exact (Forwarded_not_Blocked _ _ _ Hf Hb) |].
        intros [H _]. apply Hhit in H. congruence.
      * split; [intros _; left; now apply Hmiss | intros _; exact Hf].
Qed.

(** X4.  In [traefik_block_regex_urls.go] an exemption does not end the
    loop over the rules: for an exempt request every configured regex is
    evaluated, in configured order, while for a request that is not exempt
    the evaluation stops with the first regex that matches. *)
Theorem exempt_request_meets_every_regex (config : BlockIP.Config) name b request :
  BlockIP.New config name = Ok b ->
  (BlockIP.AllowLocalRequests config = true ->
   Forall private_address (fst (iphelpers.CollectRemoteIP request)) ->
   evaluated (calls (BlockIP.ServeHTTP b request))
   = evaluations (BlockIP.regexps b) (composed_url request))
  /\ (BlockIP.AllowLocalRequests config = false
      \/ Exists (fun ip => ~ private_address ip)
           (fst (iphelpers.CollectRemoteIP request)) ->
      evaluated (calls (BlockIP.ServeHTTP b request))
      = evaluations
          (upto_first (fun re => regexp.MatchString re (composed_url request))
             (BlockIP.regexps b))
          (composed_url request)).
Proof.
  intros Hnew.
  assert (Hev : forall stop,
             (forall re, stop re
                = regexp.MatchString re (composed_url request) && negb (exempt b request)) ->
             evaluated (calls (BlockIP.ServeHTTP b request))
             = evaluations (upto_first stop (BlockIP.regexps b)) (composed_url request)).
  { intros stop Hstop.
    destruct (for_range_evaluated (BlockIP.regexps b) (composed_url request) stop
                (BlockIP.ServeHTTP_round b request (composed_url request)))
      as [H _].
    - intros re. apply exempt_round_evaluated.
    - intros re. rewrite Hstop. apply exempt_round_evaluated.
    - unfold BlockIP.ServeHTTP. fold (composed_url request).
      destruct (for_range (BlockIP.regexps b)
                  (BlockIP.ServeHTTP_round b request (composed_url request)))
        as [t [[]|]]; simpl in *; [|assumption].
      now rewrite evaluated_app, H, app_nil_r. }
  split.
  - intros Hallow Hpriv.
    assert (He : exempt b request = true) by (apply (exempt_true_iff _ _ _ _ Hnew); auto).
    rewrite (Hev (fun _ => false)).
    + now rewrite upto_first_all.
    + intros re. now rewrite He, andb_false_r.
  - intros H. apply (exempt_false_iff _ _ _ _ Hnew) in H.
    apply Hev. intros re. now rewrite H, andb_true_r.
Qed.

End DecisionProperties.

Lemma exemption_decision_witness :
  exists b : BlockIP.traefik_block_regex_urls (R := MiniRegexp.lib),
    BlockIP.New (Examples.config true Examples.wp) "blockurls" = Ok b
    /\ Blocked
         (calls (BlockIP.ServeHTTP b
            (Examples.wp_login [("X-Forwarded-For", "192.168.1.1,2.56.20.0")])))
         404
    /\ Forwarded
         (calls (BlockIP.ServeHTTP b
            (Examples.request "localhost" "/index.html" [("X-Forwarded-For", "2.56.20.0")])))
         (Examples.request "localhost" "/index.html" [("X-Forwarded-For", "2.56.20.0")]).
Proof.
  eexists. split; [reflexivity |]. split.
  - apply (proj1 (exemption_decision (R := MiniRegexp.lib)
                    (Examples.config true Examples.wp) "blockurls" _
                    (Examples.wp_login [("X-Forwarded-For", "192.168.1.1,2.56.20.0")])
                    eq_refl)).
    split; [apply wp_matches |]. right.
    apply (some_public_iff _ _ eq_refl). vm_compute. reflexivity.
  - apply (proj1 (proj2 (exemption_decision (R := MiniRegexp.lib)
                    (Examples.config true Examples.wp) "blockurls" _
                    (Examples.request "localhost" "/index.html" [("X-Forwarded-For", "2.56.20.0")])
                    eq_refl))).
    left. intros p [<- | []] [re [Hc Hm]]. injection Hc as <-. discriminate Hm.
Defined.

Lemma exempt_request_meets_every_regex_witness :
  exists b : BlockIP.traefik_block_regex_urls (R := MiniRegexp.lib),
    BlockIP.New (Examples.config true ["^localhost/wp"; "login$"; "admin"]) "blockurls" = Ok b
    /\ evaluated (calls (BlockIP.ServeHTTP b (Examples.wp_login [("X-Real-IP", "10.1.2.3")])))
       = evaluations (BlockIP.regexps b) "localhost/wp-login"
    /\ evaluated (calls (BlockIP.ServeHTTP b (Examples.wp_login [("X-Real-IP", "2.56.20.0")])))
       = evaluations (firstn 1 (BlockIP.regexps b)) "localhost/wp-login".
Proof.
  eexists. split; [reflexivity |]. split.
  - apply (proj1 (exempt_request_meets_every_regex (R := MiniRegexp.lib)
                    (Examples.config true ["^localhost/wp"; "login$"; "admin"]) "blockurls" _
                    (Examples.wp_login [("X-Real-IP", "10.1.2.3")]) eq_refl) eq_refl).
    apply (all_private_iff _ _ eq_refl). vm_compute. reflexivity.
  - apply (proj2 (exempt_request_meets_every_regex (R := MiniRegexp.lib)
                    (Examples.config true ["^localhost/wp"; "login$"; "admin"]) "blockurls" _
                    (Examples.wp_login [("X-Real-IP", "2.56.20.0")]) eq_refl)).
    right. apply (some_public_iff _ _ eq_refl). vm_compute. reflexivity.
Defined.

(** ** The revisions with string rules, in full *)
Section StringDecisionLemmas.
Context {R : regexp.Lib}.

Lemma Contains_existsb_iff (strs : list string) (url : string) :
  existsb (strings.Contains url) strs = true <-> some_string_occurs strs url.
Proof.
  rewrite existsb_exists. unfold some_string_occurs.
  split; intros [str [Hin H]]; exists str; (split; [assumption |]);
    now apply Contains_iff.
Qed.

Lemma Contains_existsb_false_iff (strs : list string) (url : string) :
  existsb (strings.Contains url) strs = false <-> no_string_occurs strs url.
Proof.
  split.
  - intros H str Hin Hs.
    assert (existsb (strings.Contains url) strs = true)
      by (apply Contains_existsb_iff; now exists str).
    congruence.
  - intros H. destruct (existsb _ strs) eqn:He; [|reflexivity].
    apply Contains_existsb_iff in He. destruct He as [str [Hin Hs]].
    exfalso. exact (H str Hin Hs).
Qed.

(** The two loops of the substring revisions, followed by the call of the
    next handler: the outcome and the evaluations. *)
Lemma two_loops (strs : list string) (regexps : list regexp.Regexp)
    (url msg1 msg2 : string) (code : Z) (request : http.Request) :
  let t := calls (for_range strs (fun str =>
                    when (strings.Contains url str)
                      (log_Printf msg1 ;; WriteHeader code ;; return_)) ;;
                  for_range regexps (fun regex =>
                    matched <- MatchString regex url ;;
                    when matched (log_Printf msg2 ;; WriteHeader code ;; return_)) ;;
                  next_ServeHTTP request)%handler in
  (existsb (strings.Contains url) strs
   || existsb (fun re => regexp.MatchString re url) regexps = true ->
   Blocked t code)
  /\ (existsb (strings.Contains url) strs
      || existsb (fun re => regexp.MatchString re url) regexps = false ->
      Forwarded t request)
  /\ (existsb (strings.Contains url) strs = false ->
      evaluated t
      = evaluations (upto_first (fun re => regexp.MatchString re url) regexps) url).
Proof.
  intros t. subst t.
  destruct (existsb (strings.Contains url) strs) eqn:Hs.
  - destruct (substring_loop_hit strs url msg1 code) as [t1 [-> [Hb _]]];
      [now apply existsb_exists |].
    split; [intros _; exact Hb | split; discriminate].
  - destruct (substring_loop_miss strs url msg1 code) as [t1 [-> [Hq He]]];
      [now apply existsb_false_all |].
    destruct (for_range_evaluated regexps url (fun re => regexp.MatchString re url)
                (fun regex =>
                   matched <- MatchString regex url ;;
                   when matched (log_Printf msg2 ;; WriteHeader code ;; return_))%handler)
      as [Hev _]; [intros re; apply plain_round_evaluated
                  | intros re; apply plain_round_evaluated |].
    cbn [orb]. split; [|split].
    + intros Hr.
      destruct (regex_loop_hit regexps url msg2 code) as [t2 [Ht2 Hb]];
        [now apply existsb_exists |].
      rewrite Ht2 in *. unfold bind, calls. cbn [fst].
      now apply Blocked_after_quiet.
    + intros Hr.
      destruct (regex_loop_miss regexps url msg2 code) as [t2 [Ht2 Hq2]];
        [now apply existsb_false_all |].
      rewrite Ht2 in *. unfold bind, calls, next_ServeHTTP, call. cbn [fst].
      rewrite app_assoc. apply Forwarded_after_quiet. now apply quiet_app.
    + intros _.
      destruct (for_range regexps _) as [t2 [[]|]]; unfold bind, calls, next_ServeHTTP, call;
        cbn [fst snd] in *.
      * now rewrite !evaluated_app, He, Hev, app_nil_r.
      * now rewrite evaluated_app, He.
Qed.

Lemma exact_then_loop (exact : list string) (regexps : list regexp.Regexp)
    (url msg1 msg2 : string) (code : Z) (request : http.Request) :
  let t := calls (when (slices.Contains exact url)
                    (log_Printf msg1 ;; WriteHeader code ;; return_) ;;
                  for_range regexps (fun regex =>
                    matched <- MatchString regex url ;;
                    when matched (log_Printf msg2 ;; WriteHeader code ;; return_)) ;;
                  next_ServeHTTP request)%handler in
  (slices.Contains exact url
   || existsb (fun re => regexp.MatchString re url) regexps = true ->
   Blocked t code)
  /\ (slices.Contains exact url
      || existsb (fun re => regexp.MatchString re url) regexps = false ->
      Forwarded t request)
  /\ (slices.Contains exact url = false ->
      evaluated t
      = evaluations (upto_first (fun re => regexp.MatchString re url) regexps) url).
Proof.
  intros t. subst t.
  destruct (slices.Contains exact url) eqn:Hs.
  - split; [intros _; now split | split; discriminate].
  - destruct (for_range_evaluated regexps url (fun re => regexp.MatchString re url)
                (fun regex =>
                   matched <- MatchString regex url ;;
                   when matched (log_Printf msg2 ;; WriteHeader code ;; return_))%handler)
      as [Hev _]; [intros re; apply plain_round_evaluated
                  | intros re; apply plain_round_evaluated |].
    cbn [orb when]. unfold bind at 1. unfold ret. split; [|split].
    + intros Hr.
      destruct (regex_loop_hit regexps url msg2 code) as [t2 [Ht2 Hb]];
        [now apply existsb_exists |].
      rewrite Ht2 in *. unfold bind, calls. cbn [fst app]. exact Hb.
    + intros Hr.
      destruct (regex_loop_miss regexps url msg2 code) as [t2 [Ht2 Hq2]];
        [now apply existsb_false_all |].
      rewrite Ht2 in *. unfold bind, calls, next_ServeHTTP, call. cbn [fst app].
      now apply Forwarded_after_quiet.
    + intros _.
      destruct (for_range regexps _) as [t2 [[]|]]; unfold bind, calls, next_ServeHTTP, call;
        cbn [fst snd app] in *.
      * now rewrite evaluated_app, Hev, app_nil_r.
      * assumption.
Qed.

Lemma decision_from_cases (t : list event) (code : Z) (request : http.Request)
    (hit : bool) (P Q : Prop) :
  (hit = true <-> P) -> (hit = false <-> Q) ->
  (hit = true -> Blocked t code) -> (hit = false -> Forwarded t request) ->
  (Blocked t code <-> P) /\ (Forwarded t request <-> Q).
Proof.
  intros HP HQ Hb Hf. destruct hit.
  - specialize (Hb eq_refl). split.
    + split; [intros _; now apply HP | intros _; exact Hb].
    + split; [intros H; exfalso; exact (Forwarded_not_Blocked _ _ _ H Hb) |].
      intros H. apply HQ in H. discriminate H.
  - specialize (Hf eq_refl). split.
    + split; [intros H; exfalso; exact (Forwarded_not_Blocked _ _ _ Hf H) |].
      intros H. apply HP in H. discriminate H.
    + split; [intros _; now apply HQ | intros _; exact Hf].
Qed.

Lemma orb_hit_iff (a b : bool) (A B : Prop) :
  (a = true <-> A) -> (b = true <-> B) -> (a || b = true <-> A \/ B).
Proof. intros HA HB. rewrite orb_true_iff, HA, HB. reflexivity. Qed.

Lemma orb_miss_iff (a b : bool) (A B : Prop) :
  (a = false <-> A) -> (b = false <-> B) -> (a || b = false <-> A /\ B).
Proof. intros HA HB. rewrite orb_false_iff, HA, HB. reflexivity. Qed.

Lemma not_In_slices_iff (l : list string) (v : string) :
  slices.Contains l v = false <-> ~ In v l.
Proof.
  rewrite <- slices_Contains_iff. destruct (slices.Contains l v).
  - split; [discriminate | intros H; now destruct H].
  - split; [intros _; discriminate | reflexivity].
Qed.

End StringDecisionLemmas.

Section StringDecisionProperties.
Context {R : regexp.Lib}.

(** X2.  In the three revisions with string rules, [ServeHTTP] writes the
    configured status code, once and without a call of the next handler,
    exactly when the composed URL contains a configured string (is one, in
    the exact-match revision) or is matched by a configured regex; in
    every other case it calls the next handler, once, and writes nothing.
    The headers of the request and [allowLocalRequests] play no part. *)
Theorem string_rules_decision :
  (forall (config : BlockStringsIP.Config) name b request,
     BlockStringsIP.New config name = Ok b ->
     (Blocked (calls (BlockStringsIP.ServeHTTP b request)) (BlockStringsIP.StatusCode config)
      <-> some_string_occurs (BlockStringsIP.MatchStrings config) (composed_url request)
          \/ some_regex_matches (BlockStringsIP.Regex config) (composed_url request))
     /\ (Forwarded (calls (BlockStringsIP.ServeHTTP b request)) request
         <-> no_string_occurs (BlockStringsIP.MatchStrings config) (composed_url request)
             /\ no_regex_matches (BlockStringsIP.Regex config) (composed_url request)))
  /\ (forall (config : BlockStrings.Config) name b request,
        BlockStrings.New config name = Ok b ->
        (Blocked (calls (BlockStrings.ServeHTTP b request)) (BlockStrings.StatusCode config)
         <-> some_string_occurs (BlockStrings.MatchStrings config) (composed_url request)
             \/ some_regex_matches (BlockStrings.Regex config) (composed_url request))
        /\ (Forwarded (calls (BlockStrings.ServeHTTP b request)) request
            <-> no_string_occurs (BlockStrings.MatchStrings config) (composed_url request)
                /\ no_regex_matches (BlockStrings.Regex config) (composed_url request)))
  /\ (forall (config : BlockExact.Config) name b request,
        BlockExact.New config name = Ok b ->
        (Blocked (calls (BlockExact.ServeHTTP b request)) (BlockExact.StatusCode config)
         <-> In (composed_url request) (BlockExact.ExactMatch config)
             \/ some_regex_matches (BlockExact.Regex config) (composed_url request))
        /\ (Forwarded (calls (BlockExact.ServeHTTP b request)) request
            <-> ~ In (composed_url request) (BlockExact.ExactMatch config)
                /\ no_regex_matches (BlockExact.Regex config) (composed_url request))).
Proof.
  split; [|split]; intros config name b request Hnew.
  - destruct (BlockStringsIP_New_ok _ _ _ Hnew) as [Hc [Hm Hs]].
    rewrite <- Hm, <- Hs.
    destruct (two_loops (BlockStringsIP.matchStrings b) (BlockStringsIP.regexps b)
                (composed_url request)
                "URL is blocked (substring match): (%s): module=%s"
                "URL is blocked (regex match): (%s) module=%s"
                (BlockStringsIP.statusCode b) request) as [Hb [Hf _]].
    apply (decision_from_cases _ _ _ _ _ _
             (orb_hit_iff _ _ _ _ (Contains_existsb_iff _ _) (hit_iff _ _ _ Hc))
             (orb_miss_iff _ _ _ _ (Contains_existsb_false_iff _ _) (miss_iff _ _ _ Hc))
             Hb Hf).
  - destruct (BlockStrings_New_ok _ _ _ Hnew) as [Hc [Hm Hs]].
    rewrite <- Hm, <- Hs.
    destruct (two_loops (BlockStrings.matchStrings b) (BlockStrings.regexps b)
                (composed_url request)
                "URL is blocked (substring match): (%s): module=%s"
                "URL is blocked (regex match): (%s) module=%s"
                (BlockStrings.statusCode b) request) as [Hb [Hf _]].
    apply (decision_from_cases _ _ _ _ _ _
             (orb_hit_iff _ _ _ _ (Contains_existsb_iff _ _) (hit_iff _ _ _ Hc))
             (orb_miss_iff _ _ _ _ (Contains_existsb_false_iff _ _) (miss_iff _ _ _ Hc))
             Hb Hf).
  - destruct (BlockExact_New_ok _ _ _ Hnew) as [Hc [Hm Hs]].
    rewrite <- Hm, <- Hs.
    destruct (exact_then_loop (BlockExact.exactMatch b) (BlockExact.regexps b)
                (composed_url request)
                "URL is blocked (exact match): (%s): module=%s"
                "URL is blocked (regex match): (%s) module=%s"
                (BlockExact.statusCode b) request) as [Hb [Hf _]].
    apply (decision_from_cases _ _ _ _ _ _
             (orb_hit_iff _ _ _ _ (slices_Contains_iff _ _) (hit_iff _ _ _ Hc))
             (orb_miss_iff _ _ _ _ (not_In_slices_iff _ _) (miss_iff _ _ _ Hc))
             Hb Hf).
Qed.

(** X3.  In the three revisions with string rules, when no string rule
    hits, the regexes are evaluated in configured order up to and
    including the first one that matches, and no later one is evaluated;
    when none matches, each is evaluated once. *)
Theorem first_match_wins :
  (forall (config : BlockStringsIP.Config) name b request,
     BlockStringsIP.New config name = Ok b ->
     no_string_occurs (BlockStringsIP.MatchStrings config) (composed_url request) ->
     evaluated (calls (BlockStringsIP.ServeHTTP b request))
     = evaluations
         (upto_first (fun re => regexp.MatchString re (composed_url request))
            (BlockStringsIP.regexps b))
         (composed_url request))
  /\ (forall (config : BlockStrings.Config) name b request,
        BlockStrings.New config name = Ok b ->
        no_string_occurs (BlockStrings.MatchStrings config) (composed_url request) ->
        evaluated (calls (BlockStrings.ServeHTTP b request))
        = evaluations
            (upto_first (fun re => regexp.MatchString re (composed_url request))
               (BlockStrings.regexps b))
            (composed_url request))
  /\ (forall (config : BlockExact.Config) name b request,
        BlockExact.New config name = Ok b ->
        ~ In (composed_url request) (BlockExact.ExactMatch config) ->
        evaluated (calls (BlockExact.ServeHTTP b request))
        = evaluations
            (upto_first (fun re => regexp.MatchString re (composed_url request))
               (BlockExact.regexps b))
            (composed_url request)).
Proof.
  split; [|split]; intros config name b request Hnew Hno.
  - destruct (BlockStringsIP_New_ok _ _ _ Hnew) as [_ [Hm _]].
    apply (two_loops (BlockStringsIP.matchStrings b) (BlockStringsIP.regexps b)
             (composed_url request)
             "URL is blocked (substring match): (%s): module=%s"
             "URL is blocked (regex match): (%s) module=%s"
             (BlockStringsIP.statusCode b) request).
    rewrite Hm. now apply Contains_existsb_false_iff.
  - destruct (BlockStrings_New_ok _ _ _ Hnew) as [_ [Hm _]].
    apply (two_loops (BlockStrings.matchStrings b) (BlockStrings.regexps b)
             (composed_url request)
             "URL is blocked (substring match): (%s): module=%s"
             "URL is blocked (regex match): (%s) module=%s"
             (BlockStrings.statusCode b) request).
    rewrite Hm. now apply Contains_existsb_false_iff.
  - destruct (BlockExact_New_ok _ _ _ Hnew) as [_ [Hm _]].
    apply (exact_then_loop (BlockExact.exactMatch b) (BlockExact.regexps b)
             (composed_url request)
             "URL is blocked (exact match): (%s): module=%s"
             "URL is blocked (regex match): (%s) module=%s"
             (BlockExact.statusCode b) request).
    rewrite Hm. now apply not_In_slices_iff.
Qed.

End StringDecisionProperties.

Lemma string_rules_decision_witness :
  exists b : BlockStrings.traefik_block_regex_urls (R := MiniRegexp.lib),
    BlockStrings.New
      {| BlockStrings.Regex := Examples.wp;
         BlockStrings.MatchStrings := ["something"];
         BlockStrings.SilentStartUp := true;
         BlockStrings.StatusCode := 418 |} "blockurls" = Ok b
    /\ Blocked
         (calls (BlockStrings.ServeHTTP b (Examples.wp_login [("X-Real-IP", "192.168.1.1")])))
         418.
Proof.
  eexists. split; [reflexivity |].
  apply (proj1 (proj1 (proj2 (string_rules_decision (R := MiniRegexp.lib)))
                  {| BlockStrings.Regex := Examples.wp;
                     BlockStrings.MatchStrings := ["something"];
                     BlockStrings.SilentStartUp := true;
                     BlockStrings.StatusCode := 418 |} "blockurls" _
                  (Examples.wp_login [("X-Real-IP", "192.168.1.1")]) eq_refl)).
  right. apply wp_matches.
Defined.

Lemma first_match_wins_witness :
  exists b : BlockStrings.traefik_block_regex_urls (R := MiniRegexp.lib),
    BlockStrings.New
      {| BlockStrings.Regex := ["admin"; "^localhost/wp"; "login$"];
         BlockStrings.MatchStrings := ["something"];
         BlockStrings.SilentStartUp := true;
         BlockStrings.StatusCode := 418 |} "blockurls" = Ok b
    /\ evaluated (calls (BlockStrings.ServeHTTP b (Examples.wp_login [])))
       = evaluations (firstn 2 (BlockStrings.regexps b)) "localhost/wp-login".
Proof.
  eexists. split; [reflexivity |].
  apply (proj1 (proj2 (first_match_wins (R := MiniRegexp.lib)))
           {| BlockStrings.Regex := ["admin"; "^localhost/wp"; "login$"];
              BlockStrings.MatchStrings := ["something"];
              BlockStrings.SilentStartUp := true;
              BlockStrings.StatusCode := 418 |} "blockurls" _
           (Examples.wp_login []) eq_refl).
  intros str [<- | []] Hs. apply Contains_iff in Hs. discriminate Hs.
Defined.

(** ** When [New] succeeds, and what its error names *)
Section NewProperties.
Context {R : regexp.Lib}.

Lemma compile_loop_all (l : list string) (acc : list regexp.Regexp) :
  Forall compiles l -> exists res, compile_loop l acc = inl res.
Proof.
  intros H. revert acc. induction H as [|p l [re Hp] _ IH]; intros acc; simpl.
  - now exists acc.
  - rewrite Hp. apply IH.
Qed.

Lemma compile_loop_first_failure (pre post : list string) (p : string) e
    (acc : list regexp.Regexp) :
  Forall compiles pre -> regexp.Compile p = inr e ->
  compile_loop (pre ++ p :: post) acc = inr (ErrCompilingRegex p e).
Proof.
  intros H Hp. revert acc. induction H as [|q l [re Hq] _ IH]; intros acc; simpl.
  - now rewrite Hp.
  - rewrite Hq. apply IH.
Qed.

Lemma compiled_from_compiles (l : list string) (cs : list regexp.Regexp) :
  compiled_from l cs -> Forall compiles l.
Proof.
  induction 1 as [|p re l cs Hp _ IH]; constructor; [now exists re | assumption].
Qed.

(** X5.  [New] returns a handler exactly when every configured regex
    compiles (and, in [traefik_block_regex_urls.go], there is at least
    one): it then neither fails nor panics. *)
Theorem New_succeeds_iff :
  (forall (config : BlockIP.Config) name,
     (exists b, BlockIP.New config name = Ok b)
     <-> BlockIP.Regex config <> [] /\ Forall compiles (BlockIP.Regex config))
  /\ (forall (config : BlockStringsIP.Config) name,
        (exists b, BlockStringsIP.New config name = Ok b)
        <-> Forall compiles (BlockStringsIP.Regex config))
  /\ (forall (config : BlockStrings.Config) name,
        (exists b, BlockStrings.New config name = Ok b)
        <-> Forall compiles (BlockStrings.Regex config))
  /\ (forall (config : BlockExact.Config) name,
        (exists b, BlockExact.New config name = Ok b)
        <-> Forall compiles (BlockExact.Regex config)).
Proof.
  split; [|split; [|split]]; intros config name; split.
  - intros [b Hnew]. destruct (BlockIP_New_ok _ _ _ Hnew) as [Hne [Hc _]].
    split; [assumption | exact (compiled_from_compiles _ _ Hc)].
  - intros [Hne Hall]. unfold BlockIP.New.
    destruct (compile_loop_all _ [] Hall) as [res ->].
    destruct InitializePrivateIPBlocks_no_panic as [blocks ->].
    destruct (BlockIP.Regex config); [congruence |]. eexists. reflexivity.
  - intros [b Hnew]. destruct (BlockStringsIP_New_ok _ _ _ Hnew) as [Hc _].
    exact (compiled_from_compiles _ _ Hc).
  - intros Hall. unfold BlockStringsIP.New.
    destruct (compile_loop_all _ [] Hall) as [res ->].
    destruct InitializePrivateIPBlocks_no_panic as [blocks ->].
    eexists. reflexivity.
  - intros [b Hnew]. destruct (BlockStrings_New_ok _ _ _ Hnew) as [Hc _].
    exact (compiled_from_compiles _ _ Hc).
  - intros Hall. unfold BlockStrings.New.
    destruct (compile_loop_all _ [] Hall) as [res ->]. eexists. reflexivity.
  - intros [b Hnew]. destruct (BlockExact_New_ok _ _ _ Hnew) as [Hc _].
    exact (compiled_from_compiles _ _ Hc).
  - intros Hall. unfold BlockExact.New.
    destruct (compile_loop_all _ [] Hall) as [res ->]. eexists. reflexivity.
Qed.

(** X6.  The error of [New] names the first configured regex that does
    not compile, with the error of its compilation; the regexes after it
    are not looked at. *)
Theorem New_reports_first_failure :
  (forall (config : BlockIP.Config) name pre p post e,
     BlockIP.Regex config = pre ++ p :: post ->
     Forall compiles pre -> regexp.Compile p = inr e ->
     BlockIP.New config name = Err (ErrCompilingRegex p e))
  /\ (forall (config : BlockStringsIP.Config) name pre p post e,
        BlockStringsIP.Regex config = pre ++ p :: post ->
        Forall compiles pre -> regexp.Compile p = inr e ->
        BlockStringsIP.New config name = Err (ErrCompilingRegex p e))
  /\ (forall (config : BlockStrings.Config) name pre p post e,
        BlockStrings.Regex config = pre ++ p :: post ->
        Forall compiles pre -> regexp.Compile p = inr e ->
        BlockStrings.New config name = Err (ErrCompilingRegex p e))
  /\ (forall (config : BlockExact.Config) name pre p post e,
        BlockExact.Regex config = pre ++ p :: post ->
        Forall compiles pre -> regexp.Compile p = inr e ->
        BlockExact.New config name = Err (ErrCompilingRegex p e)).
Proof.
  split; [|split; [|split]]; intros config name pre p post e Hr Hpre Hp.
  - unfold BlockIP.New. rewrite Hr.
    rewrite (compile_loop_first_failure _ _ _ _ [] Hpre Hp).
    now destruct pre.
  - unfold BlockStringsIP.New.
    now rewrite Hr, (compile_loop_first_failure _ _ _ _ [] Hpre Hp).
  - unfold BlockStrings.New.
    now rewrite Hr, (compile_loop_first_failure _ _ _ _ [] Hpre Hp).
  - unfold BlockExact.New.
    now rewrite Hr, (compile_loop_first_failure _ _ _ _ [] Hpre Hp).
Qed.

End NewProperties.

Lemma New_succeeds_iff_witness :
  exists b : BlockIP.traefik_block_regex_urls (R := MiniRegexp.lib),
    BlockIP.New (Examples.config true ["^localhost/wp(.*)"; "admin|login"]) "blockurls" = Ok b.
Proof.
  apply (proj2 (proj1 (New_succeeds_iff (R := MiniRegexp.lib))
                  (Examples.config true ["^localhost/wp(.*)"; "admin|login"]) "blockurls")).
  split; [discriminate |].
  repeat constructor; eexists; reflexivity.
Defined.

Lemma New_reports_first_failure_witness :
  BlockIP.New (R := MiniRegexp.lib)
    (Examples.config true ["^localhost/wp(.*)"; "^localhost/(admin"; "login)"]) "blockurls"
  = Err (ErrCompilingRegex (R := MiniRegexp.lib) "^localhost/(admin" MiniRegexp.MissingParen).
Proof.
  apply (proj1 (New_reports_first_failure (R := MiniRegexp.lib))
           (Examples.config true ["^localhost/wp(.*)"; "^localhost/(admin"; "login)"])
           "blockurls" ["^localhost/wp(.*)"] "^localhost/(admin" ["login)"]
           MiniRegexp.MissingParen eq_refl).
  - repeat constructor. eexists. reflexivity.
  - reflexivity.
Defined.

(** ** Which addresses are private *)
Section PrivateRanges.

Lemma byte_cases (P : Z -> bool) :
  forallb P (map Z.of_nat (seq 0 256)) = true ->
  forall x, is_byte x -> P x = true.
Proof.
  intros H x [Hlo Hhi]. rewrite forallb_forall in H. apply H.
  apply in_map_iff. exists (Z.to_nat x). split; [lia |].
  apply in_seq. lia.
Qed.

Lemma land_full (x : Z) : is_byte x -> Z.land x 255 = x.
Proof.
  intros H. apply Z.eqb_eq.
  exact (byte_cases (fun x => Z.land x 255 =? x) ltac:(vm_compute; reflexivity) x H).
Qed.

Lemma land_240 (x : Z) :
  is_byte x -> (16 =? Z.land x 240) = (16 <=? x) && (x <=? 31).
Proof.
  intros H. apply eqb_prop.
  exact (byte_cases (fun x => Bool.eqb (16 =? Z.land x 240) ((16 <=? x) && (x <=? 31)))
           ltac:(vm_compute; reflexivity) x H).
Qed.

Lemma land_192 (x : Z) :
  is_byte x -> (Z.land x 192 =? 128) = (128 <=? x) && (x <=? 191).
Proof.
  intros H. apply eqb_prop.
  exact (byte_cases (fun x => Bool.eqb (Z.land x 192 =? 128) ((128 <=? x) && (x <=? 191)))
           ltac:(vm_compute; reflexivity) x H).
Qed.

Lemma land_192_net (x : Z) :
  is_byte x -> (128 =? Z.land x 192) = (128 <=? x) && (x <=? 191).
Proof. intros H. now rewrite Z.eqb_sym, land_192. Qed.

Lemma land_254 (x : Z) :
  is_byte x -> (252 =? Z.land x 254) = (252 <=? x) && (x <=? 253).
Proof.
  intros H. apply eqb_prop.
  exact (byte_cases (fun x => Bool.eqb (252 =? Z.land x 254) ((252 <=? x) && (x <=? 253)))
           ltac:(vm_compute; reflexivity) x H).
Qed.

Lemma land_15 (x : Z) :
  is_byte x -> (Z.land x 15 =? 2) = (x mod 16 =? 2).
Proof.
  intros H. apply eqb_prop.
  exact (byte_cases (fun x => Bool.eqb (Z.land x 15 =? 2) (x mod 16 =? 2))
           ltac:(vm_compute; reflexivity) x H).
Qed.

Ltac compute_networks :=
  repeat match goal with
  | |- context [net.networkNumberAndMask ?blk] =>
      let v := eval vm_compute in (net.networkNumberAndMask blk) in
      change (net.networkNumberAndMask blk) with v
  end.

Ltac compute_lands :=
  repeat match goal with
  | |- context [Z.land (Zpos ?x) (Zpos ?y)] =>
      let v := eval vm_compute in (Z.land (Zpos x) (Zpos y)) in
      change (Z.land (Zpos x) (Zpos y)) with v
  | |- context [Z.land 0 ?y] => change (Z.land 0 y) with 0
  end.

Lemma private_v4_table (blocks : list net.IPNet) (ip : net.IP) (a b c d : Z) :
  iphelpers.InitializePrivateIPBlocks = Some blocks ->
  is_byte a -> is_byte b -> is_byte c -> is_byte d ->
  net.To4 ip = Some [a; b; c; d] ->
  iphelpers.IsPrivateIP ip blocks = private_v4 a b c.
Proof.
  intros Hinit Ha Hb Hc Hd H4.
  vm_compute in Hinit. injection Hinit as <-.
  unfold iphelpers.IsPrivateIP, net.IsLoopback, net.IsLinkLocalUnicast,
    net.IsLinkLocalMulticast. rewrite H4.
  cbn [iphelpers.IsIpInList]. unfold net.Contains. rewrite H4.
  compute_networks.
  cbn -[Z.land Z.eqb Z.leb].
  compute_lands.
  rewrite !Z.land_0_r, !land_full, land_240 by assumption.
  rewrite !Z.eqb_refl.
  rewrite (Z.eqb_sym 127 a), (Z.eqb_sym 10 a), (Z.eqb_sym 172 a), (Z.eqb_sym 192 a),
    (Z.eqb_sym 169 a), (Z.eqb_sym 168 b), (Z.eqb_sym 254 b).
  unfold private_v4. btauto.
Qed.

Lemma private_v6_table (blocks : list net.IPNet) (ip : net.IP) :
  iphelpers.InitializePrivateIPBlocks = Some blocks ->
  length ip = 16%nat -> Forall is_byte ip -> net.To4 ip = None ->
  iphelpers.IsPrivateIP ip blocks = private_v6 ip.
Proof.
  intros Hinit Hlen Hbytes H4.
  vm_compute in Hinit. injection Hinit as <-.
  destruct ip as [|b0 [|b1 [|b2 [|b3 [|b4 [|b5 [|b6 [|b7 [|b8 [|b9 [|b10 [|b11 [|b12 [|b13 [|b14 [|b15 [|x rest]]]]]]]]]]]]]]]]]; try discriminate Hlen.
  repeat match goal with
         | H : Forall is_byte (_ :: _) |- _ => inversion H; clear H; subst
         end.
  unfold iphelpers.IsPrivateIP, net.IsLoopback, net.IsLinkLocalUnicast,
    net.IsLinkLocalMulticast. rewrite H4.
  cbn [iphelpers.IsIpInList]. unfold net.Contains. rewrite H4.
  compute_networks. unfold net.Equal, private_v6.
  cbn -[Z.land Z.eqb Z.leb Z.modulo].
  compute_lands.
  rewrite !Z.land_0_r, !land_full, land_192, land_192_net, land_254, land_15 by assumption.
  rewrite !Z.eqb_refl.
  repeat match goal with
         | |- context [Z.eqb (Zpos ?n) ?v] => is_var v; rewrite (Z.eqb_sym (Zpos n) v)
         | |- context [Z.eqb 0 ?v] => is_var v; rewrite (Z.eqb_sym 0 v)
         end.
  btauto.
Qed.

End PrivateRanges.
(** ** The shape of parsed addresses *)
Section ParsedShape.

Lemma is_byte_mod (x : Z) : is_byte (x mod 256).
Proof. unfold is_byte. apply Z.mod_pos_bound. lia. Qed.

Lemma isDigit_value (c : ascii) : net.isDigit c = true -> 0 <= byte_of c - 48 <= 9.
Proof. unfold net.isDigit. lia. Qed.

Lemma parseIPv4Fields_from_shape (s : string) first prevDot val digLen fields f :
  net.parseIPv4Fields_from s first prevDot val digLen fields = Some f ->
  0 <= val <= 255 -> Forall is_byte fields -> (length fields <= 3)%nat ->
  length f = 4%nat /\ Forall is_byte f.
Proof.
  revert first prevDot val digLen fields.
  induction s as [|c s IH]; intros first prevDot val digLen fields H Hval Hf Hlen;
    simpl in H.
  - destruct (length fields <? 3)%nat eqn:Hl; [discriminate |].
    injection H as <-. apply Nat.ltb_ge in Hl. split.
    + rewrite length_app. simpl. lia.
    + apply Forall_app. split; [assumption |]. constructor; [|constructor].
      unfold is_byte. lia.
  - destruct (net.isDigit c) eqn:Hd.
    + destruct ((digLen =? 1)%nat && (val =? 0)); [discriminate |].
      destruct (255 <? val * 10 + (byte_of c - 48)) eqn:Hv; [discriminate |].
      apply (IH _ _ _ _ _ H); [|assumption..].
      apply Z.ltb_ge in Hv. pose proof (isDigit_value _ Hd). lia.
    + destruct (net.isDot c); [|discriminate].
      destruct (first || net.isEmpty s || prevDot); [discriminate |].
      destruct (length fields =? 3)%nat eqn:Hl; [discriminate |].
      apply Nat.eqb_neq in Hl.
      apply (IH _ _ _ _ _ H); [lia | |].
      * apply Forall_app. split; [assumption |]. constructor; [|constructor].
        unfold is_byte. lia.
      * rewrite length_app. simpl. lia.
Qed.

Lemma parseIPv4Fields_shape (s : string) f :
  net.parseIPv4Fields s = Some f -> length f = 4%nat /\ Forall is_byte f.
Proof.
  intros H. apply (parseIPv4Fields_from_shape _ _ _ _ _ _ _ H); [lia | constructor |].
  simpl. lia.
Qed.

Lemma parseIPv6_groups_shape (rounds : nat) (s : string) ip ellipsis s' ip' ellipsis' :
  net.parseIPv6_groups rounds s ip ellipsis = Some (s', ip', ellipsis') ->
  Nat.Even (length ip) -> (length ip <= 16)%nat -> Forall is_byte ip ->
  (length ip' <= 16)%nat /\ Forall is_byte ip'.
Proof.
  revert s ip ellipsis.
  induction rounds as [|rounds IH]; intros s ip ellipsis H Heven Hlen Hb;
    cbn [net.parseIPv6_groups] in H.
  - destruct (16 <=? length ip)%nat; [|discriminate].
    injection H as _ <- _. now split.
  - destruct (16 <=? length ip)%nat eqn:H16.
    { injection H as _ <- _. now split. }
    apply Nat.leb_gt in H16.
    assert (Hlen14 : (length ip <= 14)%nat).
    { destruct Heven as [k Hk]. lia. }
    destruct (net.parseIPv6_hex s 0 0) as [[[off acc] rest]|]; [|discriminate].
    destruct (off =? 0)%nat; [discriminate |].
    destruct (net.startsWith net.isDot rest).
    { destruct (net.isNone ellipsis && negb (length ip =? 12)%nat); [discriminate |].
      destruct (16 <? length ip + 4)%nat eqn:H4; [discriminate |].
      apply Nat.ltb_ge in H4.
      destruct (net.parseIPv4Fields s) as [f|] eqn:Hf; [|discriminate].
      injection H as _ <- _. destruct (parseIPv4Fields_shape _ _ Hf) as [Hl4 Hb4].
      split; [rewrite length_app; lia | apply Forall_app; now split]. }
    set (ip2 := ip ++ [Z.shiftr acc 8 mod 256; acc mod 256]) in *.
    assert (Hstep : Nat.Even (length ip2) /\ (length ip2 <= 16)%nat
                    /\ Forall is_byte ip2).
    { unfold ip2. rewrite length_app. simpl. split; [|split].
      - destruct Heven as [k Hk]. exists (S k). lia.
      - lia.
      - apply Forall_app. split; [assumption |].
        repeat constructor; apply is_byte_mod. }
    destruct Hstep as [He' [Hl' Hb']].
    destruct rest as [|c rest1].
    { injection H as _ <- _. now split. }
    destruct (net.isColon c); [|discriminate]. cbn [negb] in H.
    destruct rest1 as [|c1 rest2]; [discriminate |].
    destruct (net.isColon c1).
    + destruct ellipsis; [discriminate |].
      destruct (net.isEmpty rest2).
      * injection H as _ <- _. now split.
      * exact (IH _ _ _ H He' Hl' Hb').
    + exact (IH _ _ _ H He' Hl' Hb').
Qed.

Lemma parseIPv6_finish_shape (s : string) ip ellipsis b :
  net.parseIPv6_finish (s, ip, ellipsis) = Some b ->
  (length ip <= 16)%nat -> Forall is_byte ip ->
  length b = 16%nat /\ Forall is_byte b.
Proof.
  unfold net.parseIPv6_finish. intros H Hlen Hb.
  destruct (negb (net.isEmpty s)); [discriminate |].
  destruct (length ip <? 16)%nat eqn:Hl.
  - destruct ellipsis as [e|]; [|discriminate]. injection H as <-.
    apply Nat.ltb_lt in Hl. split.
    + rewrite !length_app, repeat_length.
      pose proof (f_equal (@length Z) (firstn_skipn e ip)) as Hfs.
      rewrite length_app in Hfs. lia.
    + apply Forall_app. split; [now apply Forall_take |].
      apply Forall_app. split; [|now apply Forall_drop].
      apply List.Forall_forall. intros x Hx. apply repeat_spec in Hx. subst.
      unfold is_byte. lia.
  - destruct ellipsis; [discriminate |]. injection H as <-.
    apply Nat.ltb_ge in Hl. split; [lia | assumption].
Qed.

Lemma parseIPv6_run_shape (s : string) ellipsis b :
  match net.parseIPv6_groups 8 s [] ellipsis with
  | None => None
  | Some r => net.parseIPv6_finish r
  end = Some b ->
  length b = 16%nat /\ Forall is_byte b.
Proof.
  destruct (net.parseIPv6_groups 8 s [] ellipsis) as [[[s' ip'] e']|] eqn:Hg;
    [|discriminate].
  intros Hfin.
  destruct (parseIPv6_groups_shape _ _ _ _ _ _ _ Hg) as [Hl Hb];
    [now exists 0%nat | simpl; lia | constructor |].
  exact (parseIPv6_finish_shape _ _ _ _ Hfin Hl Hb).
Qed.

Lemma parseIPv6_shape (s : string) b zone :
  net.parseIPv6 s = Some (net.Addr6 b zone) ->
  length b = 16%nat /\ Forall is_byte b.
Proof.
  unfold net.parseIPv6.
  destruct (strings.CutByte s "%"%char) as [[s1 z] found].
  destruct (found && net.isEmpty z); [discriminate |].
  assert (Hunspec : length net.IPv6unspecified = 16%nat
                    /\ Forall is_byte net.IPv6unspecified).
  { split; [reflexivity |]. repeat constructor; unfold is_byte; lia. }
  destruct s1 as [|c0 [|c1 s2]].
  - intros H. apply parseIPv6_run_some in H as [_ H].
    exact (parseIPv6_run_shape EmptyString None b H).
  - intros H. apply parseIPv6_run_some in H as [_ H].
    exact (parseIPv6_run_shape (String c0 EmptyString) None b H).
  - destruct (net.isColon c0 && net.isColon c1).
    + destruct (net.isEmpty s2).
      * intros H. injection H as <- _. exact Hunspec.
      * intros H. apply parseIPv6_run_some in H as [_ H].
        exact (parseIPv6_run_shape s2 (Some 0%nat) b H).
    + intros H. apply parseIPv6_run_some in H as [_ H].
      exact (parseIPv6_run_shape (String c0 (String c1 s2)) None b H).
Qed.

Lemma ParseIP_shape (s : string) (ip : net.IP) :
  net.ParseIP s = Some ip -> length ip = 16%nat /\ Forall is_byte ip.
Proof.
  unfold net.ParseIP, net.ParseAddr.
  destruct (net.ParseAddr_from s s) as [a|] eqn:Ha; [|discriminate].
  destruct (net.isEmpty (net.Addr_Zone a)); [|discriminate].
  intros H. injection H as <-.
  destruct (ParseAddr_from_cases _ _ _ Ha) as [_ [H4 | H6]].
  - unfold net.parseIPv4 in H4.
    destruct (net.parseIPv4Fields s) as [f|] eqn:Hf; [|discriminate].
    injection H4 as <-. destruct (parseIPv4Fields_shape _ _ Hf) as [Hl Hb].
    simpl. split.
    + now rewrite Hl.
    + repeat constructor; try (unfold is_byte; lia). exact Hb.
  - destruct a as [f | b zone].
    + exfalso. unfold net.parseIPv6 in H6.
      destruct (strings.CutByte s "%"%char) as [[s1 z] found].
      destruct (found && net.isEmpty z); [discriminate |].
      destruct s1 as [|c0 [|c1 s2]];
        try (destruct (net.parseIPv6_groups _ _ _ _) as [r|];
             [destruct (net.parseIPv6_finish r)|]; discriminate).
      destruct (net.isColon c0 && net.isColon c1);
        [destruct (net.isEmpty s2); [discriminate |] |];
        (destruct (net.parseIPv6_groups _ _ _ _) as [r|];
         [destruct (net.parseIPv6_finish r)|]; discriminate).
    + exact (parseIPv6_shape _ _ _ H6).
Qed.

Lemma CollectRemoteIP_loop_shape (P : net.IP -> Prop) (values : list string)
    (acc : list net.IP) :
  (forall s ip, net.ParseIP s = Some ip -> P ip) ->
  Forall P acc -> Forall P (fst (iphelpers.CollectRemoteIP_loop values acc)).
Proof.
  intros HP. revert acc. induction values as [|v values IH]; intros acc Hacc; simpl.
  - assumption.
  - unfold iphelpers.ParseIP. destruct (net.ParseIP v) as [ip|] eqn:Hv; simpl.
    + apply IH. apply Forall_app. split; [assumption |].
      constructor; [exact (HP _ _ Hv) | constructor].
    + assumption.
Qed.

End ParsedShape.
Section AddressProperties.

(** X7.  [IsPrivateIP], with the table that [InitializePrivateIPBlocks]
    builds, answers true for an IPv4 address [a.b.c.d], in its 4-byte
    form or mapped into IPv6 as the parser returns it, exactly when the
    address lies in 127.0.0.0/8, 10.0.0.0/8, 172.16.0.0/12,
    192.168.0.0/16, 169.254.0.0/16 or 224.0.0.0/24; for every other IPv4
    address, such as 0.0.0.0, 100.64.0.1 or 255.255.255.255, it answers
    false.  These are the private addresses of the decision. *)
Theorem private_v4_ranges (blocks : list net.IPNet) (ip : net.IP) (a b c d : Z) :
  iphelpers.InitializePrivateIPBlocks = Some blocks ->
  is_byte a -> is_byte b -> is_byte c -> is_byte d ->
  net.To4 ip = Some [a; b; c; d] ->
  iphelpers.IsPrivateIP ip blocks = private_v4 a b c
  /\ (private_address ip <-> private_v4 a b c = true).
Proof.
  intros Hinit Ha Hb Hc Hd H4.
  pose proof (private_v4_table blocks ip a b c d Hinit Ha Hb Hc Hd H4) as Ht.
  split; [exact Ht |].
  rewrite <- (IsPrivateIP_iff ip blocks Hinit). now rewrite Ht.
Qed.

(** X8.  [IsPrivateIP], with the table that [InitializePrivateIPBlocks]
    builds, answers true for an IPv6 address that is not an IPv4-mapped
    one exactly when it is the loopback address or lies in fe80::/10 or
    fc00::/7 or is a link-local multicast address (first byte ff, low
    half of the second byte 2).  These are the private addresses of the
    decision. *)
Theorem private_v6_ranges (blocks : list net.IPNet) (ip : net.IP) :
  iphelpers.InitializePrivateIPBlocks = Some blocks ->
  length ip = 16%nat -> Forall is_byte ip -> net.To4 ip = None ->
  iphelpers.IsPrivateIP ip blocks = private_v6 ip
  /\ (private_address ip <-> private_v6 ip = true).
Proof.
  intros Hinit Hlen Hb H4.
  pose proof (private_v6_table blocks ip Hinit Hlen Hb H4) as Ht.
  split; [exact Ht |].
  rewrite <- (IsPrivateIP_iff ip blocks Hinit). now rewrite Ht.
Qed.

(** X9.  Every address that [ParseIP] returns, and so every address that
    [CollectRemoteIP] collects, has 16 bytes, each between 0 and 255. *)
Theorem collected_addresses_shape :
  (forall address ip,
     iphelpers.ParseIP address = inl ip ->
     length ip = 16%nat /\ Forall is_byte ip)
  /\ (forall request,
        Forall (fun ip => length ip = 16%nat /\ Forall is_byte ip)
          (fst (iphelpers.CollectRemoteIP request))).
Proof.
  split.
  - intros address ip. unfold iphelpers.ParseIP.
    destruct (net.ParseIP address) as [ip'|] eqn:Hp; [|discriminate].
    intros H. injection H as <-. exact (ParseIP_shape _ _ Hp).
  - intros request. rewrite CollectRemoteIP_tokens.
    apply CollectRemoteIP_loop_shape; [exact ParseIP_shape | constructor].
Qed.

(** X10.  The exemption test depends on which addresses were collected,
    not on their order or on how often each occurs, although its loop
    stops at the first address that is not private. *)
Theorem exemption_ignores_order (ips ips' : list net.IP) (blocks : list net.IPNet) :
  (forall ip, In ip ips <-> In ip ips') ->
  BlockIP.isPrivateIp_loop ips blocks true = BlockIP.isPrivateIp_loop ips' blocks true.
Proof.
  intros H. rewrite !isPrivateIp_loop_forallb. cbn [andb].
  apply eq_true_iff_eq. rewrite !List.forallb_forall.
  split; intros Hall ip Hin; apply Hall, H, Hin.
Qed.

End AddressProperties.

Lemma private_v4_ranges_witness :
  exists blocks,
    iphelpers.InitializePrivateIPBlocks = Some blocks
    /\ iphelpers.IsPrivateIP
         [0; 0; 0; 0; 0; 0; 0; 0; 0; 0; 255; 255; 172; 20; 1; 9] blocks = true
    /\ iphelpers.IsPrivateIP [172; 32; 0; 1] blocks = false.
Proof.
  eexists. split; [reflexivity |]. split.
  - exact (proj1 (private_v4_ranges _
                    [0; 0; 0; 0; 0; 0; 0; 0; 0; 0; 255; 255; 172; 20; 1; 9] 172 20 1 9
                    eq_refl
                    ltac:(unfold is_byte; lia) ltac:(unfold is_byte; lia)
                    ltac:(unfold is_byte; lia) ltac:(unfold is_byte; lia) eq_refl)).
  - exact (proj1 (private_v4_ranges _ [172; 32; 0; 1] 172 32 0 1
                    eq_refl
                    ltac:(unfold is_byte; lia) ltac:(unfold is_byte; lia)
                    ltac:(unfold is_byte; lia) ltac:(unfold is_byte; lia) eq_refl)).
Defined.

Lemma private_v6_ranges_witness :
  exists blocks,
    iphelpers.InitializePrivateIPBlocks = Some blocks
    /\ iphelpers.IsPrivateIP
         [254; 128; 0; 0; 0; 0; 0; 0; 0; 0; 0; 0; 0; 0; 0; 1] blocks = true
    /\ iphelpers.IsPrivateIP
         [32; 1; 13; 184; 0; 0; 0; 0; 0; 0; 0; 0; 0; 0; 0; 1] blocks = false.
Proof.
  eexists. split; [reflexivity |]. split.
  - exact (proj1 (private_v6_ranges _
                    [254; 128; 0; 0; 0; 0; 0; 0; 0; 0; 0; 0; 0; 0; 0; 1]
                    eq_refl eq_refl
                    ltac:(repeat constructor; unfold is_byte; lia) eq_refl)).
  - exact (proj1 (private_v6_ranges _
                    [32; 1; 13; 184; 0; 0; 0; 0; 0; 0; 0; 0; 0; 0; 0; 1]
                    eq_refl eq_refl
                    ltac:(repeat constructor; unfold is_byte; lia) eq_refl)).
Defined.

Lemma collected_addresses_shape_witness :
  length [0; 0; 0; 0; 0; 0; 0; 0; 0; 0; 255; 255; 10; 0; 0; 1] = 16%nat
  /\ Forall is_byte [0; 0; 0; 0; 0; 0; 0; 0; 0; 0; 255; 255; 10; 0; 0; 1].
Proof.
  exact (proj1 collected_addresses_shape "10.0.0.1"
           [0; 0; 0; 0; 0; 0; 0; 0; 0; 0; 255; 255; 10; 0; 0; 1] eq_refl).
Defined.

Lemma exemption_ignores_order_witness :
  BlockIP.isPrivateIp_loop [[10; 0; 0; 1]; [8; 8; 8; 8]] [] true
  = BlockIP.isPrivateIp_loop [[8; 8; 8; 8]; [10; 0; 0; 1]; [8; 8; 8; 8]] [] true.
Proof.
  apply exemption_ignores_order. intros ip. simpl. tauto.
Defined.

(** ** The split of a header value, and what is read of the headers *)
Section SplitProperties.

Lemma FieldsFunc_from_trailing (v : string) (field : option string) :
  strings.FieldsFunc_from iphelpers.splitFn (v +:+ ",") field
  = strings.FieldsFunc_from iphelpers.splitFn v field.
Proof.
  revert field. induction v as [|c v IH]; intros field.
  - now destruct field.
  - rewrite append_cons. simpl.
    destruct (iphelpers.splitFn c); [destruct field |]; now rewrite IH.
Qed.

Lemma FieldsFunc_from_doubled (v1 v2 : string) (field : option string) :
  strings.FieldsFunc_from iphelpers.splitFn (v1 +:+ ",," +:+ v2) field
  = strings.FieldsFunc_from iphelpers.splitFn (v1 +:+ "," +:+ v2) field.
Proof.
  revert field. induction v1 as [|c v1 IH]; intros field.
  - now destruct field.
  - rewrite !append_cons. simpl.
    destruct (iphelpers.splitFn c); [destruct field |]; now rewrite IH.
Qed.

Lemma FieldsFunc_from_clean (s : string) (field : option string) :
  match field with
  | Some w => w <> EmptyString /\ no_comma w = true
  | None => True
  end ->
  Forall (fun t => t <> EmptyString /\ no_comma t = true)
    (strings.FieldsFunc_from iphelpers.splitFn s field).
Proof.
  revert field. induction s as [|c s IH]; intros field Hf; simpl.
  - destruct field; [now constructor | constructor].
  - destruct (iphelpers.splitFn c) eqn:Hc.
    + destruct field; [constructor; [assumption |] |]; now apply IH.
    + apply IH. destruct field as [w|].
      * destruct Hf as [Hne Hw]. split; [now destruct w |].
        clear Hne. induction w as [|x w IHw].
        -- rewrite append_nil_l, no_comma_cons, Hc. reflexivity.
        -- rewrite append_cons, !no_comma_cons in *.
           apply andb_true_iff in Hw as [Hx Hw]. now rewrite Hx, (IHw Hw).
      * split; [discriminate |]. now rewrite no_comma_cons, Hc.
Qed.

(** X11.  Empty elements of a forwarding header are skipped, not parsed:
    a comma at the start or at the end of the value and a doubled comma
    inside it leave the list of tokens unchanged, and a value without any
    other byte than commas has no token. *)
Theorem empty_elements_ignored (v1 v2 : string) :
  strings.FieldsFunc ("," +:+ v1) iphelpers.splitFn
  = strings.FieldsFunc v1 iphelpers.splitFn
  /\ strings.FieldsFunc (v1 +:+ ",") iphelpers.splitFn
     = strings.FieldsFunc v1 iphelpers.splitFn
  /\ strings.FieldsFunc (v1 +:+ ",," +:+ v2) iphelpers.splitFn
     = strings.FieldsFunc (v1 +:+ "," +:+ v2) iphelpers.splitFn
  /\ (no_comma v1 = true -> v1 <> EmptyString ->
      strings.FieldsFunc v1 iphelpers.splitFn = [v1]).
Proof.
  unfold strings.FieldsFunc. split; [reflexivity |].
  split; [apply FieldsFunc_from_trailing |].
  split; [apply FieldsFunc_from_doubled |].
  intros Hc Hne. rewrite <- (append_nil_r v1) at 1.
  now rewrite (FieldsFunc_from_start _ _ Hne Hc).
Qed.

(** X12.  No token that [CollectRemoteIP] hands to [ParseIP] is empty or
    holds a comma, whatever the header value is. *)
Theorem tokens_are_clean (request : http.Request) :
  Forall (fun t => t <> EmptyString /\ no_comma t = true)
    (forwarded_for_tokens request ++ real_ip_tokens request).
Proof.
  apply Forall_app. split; apply FieldsFunc_from_clean; exact I.
Qed.

Lemma Header_Get_insert_tail (h : http.Header) (k key v : string) (vs vs' : list string) :
  h !! k = Some (v :: vs) ->
  http.Header_Get (<[k := v :: vs']> h) key = http.Header_Get h key.
Proof.
  intros Hk. unfold http.Header_Get.
  destruct (decide (k = textproto.CanonicalMIMEHeaderKey key)) as [<- | Hne].
  - now rewrite lookup_insert_eq, Hk.
  - now rewrite lookup_insert_ne.
Qed.

Lemma Header_Get_insert_other (h : http.Header) (k key : string) (vals : list string) :
  k <> textproto.CanonicalMIMEHeaderKey key ->
  http.Header_Get (<[k := vals]> h) key = http.Header_Get h key.
Proof.
  intros Hne. unfold http.Header_Get. now rewrite lookup_insert_ne.
Qed.

(** X13.  [CollectRemoteIP] reads the first value stored under
    [X-Forwarded-For] and the first value stored under [X-Real-Ip], and
    nothing else of the headers: further values under a name, and the
    values under any other name, do not change what it returns. *)
Theorem collect_reads_two_first_values (request : http.Request) (k v : string)
    (vs vs' vals : list string) :
  (http.Header_ request !! k = Some (v :: vs) ->
   iphelpers.CollectRemoteIP (with_header request (<[k := v :: vs']> (http.Header_ request)))
   = iphelpers.CollectRemoteIP request)
  /\ (k <> "X-Forwarded-For" -> k <> "X-Real-Ip" ->
      iphelpers.CollectRemoteIP (with_header request (<[k := vals]> (http.Header_ request)))
      = iphelpers.CollectRemoteIP request).
Proof.
  split.
  - intros Hk. unfold iphelpers.CollectRemoteIP, with_header. cbn [http.Header_].
    now rewrite !(Header_Get_insert_tail _ _ _ _ _ _ Hk).
  - intros H1 H2. unfold iphelpers.CollectRemoteIP, with_header. cbn [http.Header_].
    now rewrite !Header_Get_insert_other.
Qed.

End SplitProperties.

Lemma empty_elements_ignored_witness :
  strings.FieldsFunc "10.0.0.1" iphelpers.splitFn = ["10.0.0.1"].
Proof.
  apply (proj2 (proj2 (proj2 (empty_elements_ignored "10.0.0.1" "")))).
  - reflexivity.
  - discriminate.
Defined.

Lemma collect_reads_two_first_values_witness :
  iphelpers.CollectRemoteIP
    (with_header (Examples.wp_login [("X-Forwarded-For", "10.0.0.1")])
       (<["X-Forwarded-For" := ["10.0.0.1"; "2.56.20.0"]]>
          (http.Header_ (Examples.wp_login [("X-Forwarded-For", "10.0.0.1")]))))
  = iphelpers.CollectRemoteIP (Examples.wp_login [("X-Forwarded-For", "10.0.0.1")]).
Proof.
  apply (proj1 (collect_reads_two_first_values
                  (Examples.wp_login [("X-Forwarded-For", "10.0.0.1")])
                  "X-Forwarded-For" "10.0.0.1" [] ["2.56.20.0"] [])).
  vm_compute. reflexivity.
Defined.

(** ** What [ServeHTTP] logs, and the empty string rule *)
Section LoggingProperties.
Context {R : regexp.Lib}.


(** X15.  In the two revisions with substring rules an empty configured
    string blocks every request: [strings.Contains] holds of the empty
    string for every URL, so the status code is written, the next
    handler is not called and no regex is evaluated. *)
Theorem empty_string_rule_blocks_all :
  (forall (config : BlockStringsIP.Config) name b request,
     BlockStringsIP.New config name = Ok b ->
     In EmptyString (BlockStringsIP.MatchStrings config) ->
     Blocked (calls (BlockStringsIP.ServeHTTP b request)) (BlockStringsIP.StatusCode config)
     /\ evaluated (calls (BlockStringsIP.ServeHTTP b request)) = [])
  /\ (forall (config : BlockStrings.Config) name b request,
        BlockStrings.New config name = Ok b ->
        In EmptyString (BlockStrings.MatchStrings config) ->
        Blocked (calls (BlockStrings.ServeHTTP b request)) (BlockStrings.StatusCode config)
        /\ evaluated (calls (BlockStrings.ServeHTTP b request)) = []).
Proof.
  split; intros config name b request Hnew Hin.
  - destruct (BlockStringsIP_New_ok _ _ _ Hnew) as [_ [Hm Hs]].
    rewrite <- Hs. apply BlockStringsIP_string_hit.
    exists EmptyString. rewrite Hm. split; [assumption | apply Contains_empty].
  - destruct (BlockStrings_New_ok _ _ _ Hnew) as [_ [Hm Hs]].
    rewrite <- Hs. apply BlockStrings_string_hit.
    exists EmptyString. rewrite Hm. split; [assumption | apply Contains_empty].
Qed.

End LoggingProperties.


Lemma empty_string_rule_blocks_all_witness :
  exists b : BlockStrings.traefik_block_regex_urls (R := MiniRegexp.lib),
    BlockStrings.New
      {| BlockStrings.Regex := Examples.wp;
         BlockStrings.MatchStrings := ["something"; ""];
         BlockStrings.SilentStartUp := true;
         BlockStrings.StatusCode := 418 |} "blockurls" = Ok b
    /\ Blocked (calls (BlockStrings.ServeHTTP b (Examples.request "example.org" "/" []))) 418.
Proof.
  eexists. split; [reflexivity |].
  apply (proj2 (empty_string_rule_blocks_all (R := MiniRegexp.lib))
           {| BlockStrings.Regex := Examples.wp;
              BlockStrings.MatchStrings := ["something"; ""];
              BlockStrings.SilentStartUp := true;
              BlockStrings.StatusCode := 418 |} "blockurls" _
           (Examples.request "example.org" "/" []) eq_refl).
  simpl. auto.
Defined.

(** ** Tokens that are no address literals *)
Section MalformedTokens.

Lemma ParseIP_rejects (token : string) :
  address_bytes token = false ->
  iphelpers.ParseIP token = inr (iphelpers.ErrUnableToParse token).
Proof.
  intros H. unfold iphelpers.ParseIP.
  destruct (net.ParseIP token) as [ip|] eqn:Hp; [|reflexivity].
  destruct (ParseIP_token _ _ Hp) as [_ Hb]. congruence.
Qed.

Lemma CollectRemoteIP_rejects (request : http.Request) :
  Exists (fun token => address_bytes token = false)
    (forwarded_for_tokens request ++ real_ip_tokens request) ->
  snd (iphelpers.CollectRemoteIP request) <> None.
Proof.
  intros H. apply List.Exists_exists in H as [token [Hin Hb]].
  destruct (first_failure (forwarded_for_tokens request ++ real_ip_tokens request))
    as [pre [bad [post [ips [Ht [Hpre Hbad]]]]]].
  - exists token. split; [assumption |].
    destruct (net.ParseIP token) as [ip|] eqn:Hp; [|reflexivity].
    destruct (ParseIP_token _ _ Hp) as [_ Hb']. congruence.
  - rewrite (collect_first_failure request pre bad post ips Ht Hpre Hbad). discriminate.
Qed.

(** X16.  [ParseIP] accepts only address literals: a token with a byte
    that is no hex digit, dot or colon (a space after a comma, a bracket,
    a zone) is answered with the error that names the token, and a
    request with such a token in a forwarding header makes
    [CollectRemoteIP] return an error. *)
Theorem malformed_token_rejected :
  (forall token,
     address_bytes token = false ->
     iphelpers.ParseIP token = inr (iphelpers.ErrUnableToParse token))
  /\ (forall request,
        Exists (fun token => address_bytes token = false)
          (forwarded_for_tokens request ++ real_ip_tokens request) ->
        snd (iphelpers.CollectRemoteIP request) <> None).
Proof.
  split; [exact ParseIP_rejects | exact CollectRemoteIP_rejects].
Qed.

End MalformedTokens.

Lemma malformed_token_rejected_witness :
  iphelpers.ParseIP " 10.0.0.2" = inr (iphelpers.ErrUnableToParse " 10.0.0.2")
  /\ snd (iphelpers.CollectRemoteIP
            (Examples.wp_login [("X-Forwarded-For", "10.0.0.1, 10.0.0.2")])) <> None.
Proof.
  split.
  - apply (proj1 malformed_token_rejected). reflexivity.
  - apply (proj2 malformed_token_rejected). right. left. reflexivity.
Defined.
